(** * cyipopt: the scipy-style front end of the Ipopt interface

    A shallow embedding of [ipopt/ipopt_wrapper.py]: the problem adapter
    [IpoptProblemWrapper], the bound translators [get_bounds] and
    [get_constraint_bounds], the option translator [replace_option] and
    the entry operation [minimize_ipopt], followed by the properties of
    the specification that concern them.

    Conventions of the embedding.
    - numpy float64 values are the kernel's binary64 floats, so that the
      exact comparison [==] of the source is IEEE equality.
    - Arrays are values: a point handed to the adapter is not written
      afterwards (the solver passes a new array to each call), so the
      reference kept in [last_x] is that point.
    - Python exceptions are values of [exn]; a call that may raise
      returns a [res].
    - A method of the adapter that assigns to [self] returns the new
      adapter next to its result, also when it raises: the assignments
      made before the [raise] are kept, as in Python.
    - The options dictionary is an object of a store, named by a
      location, because the entry operation writes into the dictionary
      its caller passed.
    - The native solver ([cyipopt.problem]) is a collaborator outside
      the file; it is a parameter of the entry operation, and every call
      made to it is recorded in a trace. *)

From Stdlib Require Import ZArith List String Floats Bool Lia.
From stdpp Require Import base gmap strings list option.

Local Open Scope Z_scope.
Local Open Scope string_scope.
Local Open Scope list_scope.

(** ** Python values *)

(** The values of solver options and of the extra arguments handed to
    the user's functions. *)
Inductive pyval : Type :=
  | VInt (z : Z)
  | VFloat (f : float)
  | VStr (s : string).

(** Exceptions, by class, with their argument. [InvalidOption] is the
    [TypeError] the entry operation raises for an option the solver
    rejects; [Raised] is whatever a user function or the solver raises. *)
Inductive exn : Type :=
  | NotImplementedError (msg : string)
  | NameError (name : string)
  | ValueError (payload : string)
  | TypeError (msg : string)
  | InvalidOption (option : string) (value : pyval) (original : string)
  | IndexError (msg : string)
  | KeyError (key : string)
  | AttributeError (attr : string)
  | Raised (what : string).

Inductive res (A : Type) : Type :=
  | Ok (a : A)
  | Err (e : exn).
Arguments Ok {A} a.
Arguments Err {A} e.

Definition res_bind {A B : Type} (r : res A) (k : A -> res B) : res B :=
  match r with
  | Ok a => k a
  | Err e => Err e
  end.

Definition is_ok {A : Type} (r : res A) : bool :=
  match r with Ok _ => true | Err _ => false end.

(** Arrays of dimension 0 and 1: points, and the values of the
    objective and of the constraint functions. *)
Inductive ndarray : Type :=
  | Scalar (f : float)
  | Vec (v : list float).

(** Arrays of dimension 1 and 2: the values of a constraint Jacobian
    (one row, or a list of rows). *)
Inductive ndarray2 : Type :=
  | Row (v : list float)
  | Mat (rows : list (list float)).

(** What an objective may return: an array, or a tuple (the pair value,
    gradient of a combined evaluator). *)
Inductive pyobj : Type :=
  | PArr (a : ndarray)
  | PTuple (items : list ndarray).

(** [np.atleast_1d] and [np.atleast_2d]. *)
Definition atleast_1d (a : ndarray) : list float :=
  match a with
  | Scalar f => [f]
  | Vec v => v
  end.

Definition atleast_2d (a : ndarray2) : list (list float) :=
  match a with
  | Row v => [v]
  | Mat rows => rows
  end.

(** [np.asarray(a).shape == ()]. *)
Definition shape_is_unit (a : ndarray) : bool :=
  match a with
  | Scalar _ => true
  | Vec _ => false
  end.

(** [np.all(a == b)]: the element-wise IEEE comparison, with numpy's
    broadcasting of a scalar or of a one-element array. Two arrays of
    lengths that do not broadcast compare as unequal. A NaN component is
    equal to nothing, itself included. *)
Fixpoint all_eq2 (u v : list float) : bool :=
  match u, v with
  | [], [] => true
  | a :: u', b :: v' => PrimFloat.eqb a b && all_eq2 u' v'
  | _, _ => false
  end.

Definition all_eq1 (f : float) (v : list float) : bool :=
  forallb (PrimFloat.eqb f) v.

Definition np_all_eq (a b : ndarray) : bool :=
  match a, b with
  | Scalar f, Scalar g => PrimFloat.eqb f g
  | Scalar f, Vec v => all_eq1 f v
  | Vec u, Scalar g => forallb (fun a => PrimFloat.eqb a g) u
  | Vec u, Vec v =>
      if (length u =? length v)%nat then all_eq2 u v
      else match u, v with
           | [f], _ => all_eq1 f v
           | _, [g] => forallb (fun a => PrimFloat.eqb a g) u
           | _, _ => false
           end
  end.

(** [o[i]] on the values above. *)
Definition getitem (o : pyobj) (i : nat) : res pyobj :=
  match o with
  | PTuple items =>
      match nth_error items i with
      | Some a => Ok (PArr a)
      | None => Err (IndexError "tuple index out of range")
      end
  | PArr (Vec v) =>
      match nth_error v i with
      | Some f => Ok (PArr (Scalar f))
      | None => Err (IndexError "index out of bounds")
      end
  | PArr (Scalar _) => Err (IndexError "invalid index to scalar variable")
  end.

(** ** Dictionaries

    A Python dictionary with string keys: the entries in insertion
    order, each key at most once. *)
Abbreviation pydict := (list (string * pyval)).

Fixpoint dict_get (k : string) (d : pydict) : option pyval :=
  match d with
  | [] => None
  | (k', v) :: d' => if String.eqb k k' then Some v else dict_get k d'
  end.

(** [k in d] *)
Definition dict_in (k : string) (d : pydict) : bool :=
  match dict_get k d with Some _ => true | None => false end.

(** The entries left by [d.pop(k)] (or [del d[k]]). *)
Fixpoint dict_del (k : string) (d : pydict) : pydict :=
  match d with
  | [] => []
  | (k', v) :: d' =>
      if String.eqb k k' then dict_del k d' else (k', v) :: dict_del k d'
  end.

(** [d[k] = v]: the value of an existing key is replaced where it
    stands, a new key is appended. *)
Fixpoint dict_set (k : string) (v : pyval) (d : pydict) : pydict :=
  match d with
  | [] => [(k, v)]
  | (k', v') :: d' =>
      if String.eqb k k' then (k, v) :: d' else (k', v') :: dict_set k v d'
  end.

(** ** The user's functions

    [fun(x, *args, **kwargs)], [jac(x, *args, **kwargs)],
    [con['fun'](x, *args)] and [con['jac'](x, *args)]. They are pure;
    each may raise. *)
Definition extra_args : Type := list pyval.
Definition objective_fn : Type := ndarray -> extra_args -> pydict -> res pyobj.
Definition con_fn : Type := ndarray -> extra_args -> res ndarray.
Definition con_jac_fn : Type := ndarray -> extra_args -> res ndarray2.

(** The [jac] argument: [None], [True], a callable, or anything else
    ([False], a number, ...). *)
Inductive jac_arg : Type :=
  | JacNone
  | JacTrue
  | JacCallable (g : objective_fn)
  | JacOther.

(** One constraint specification, a dictionary with the keys ['fun'],
    ['type'] and, optionally, ['jac'] and ['args']. *)
Record constraint : Type := {
  con_fun : con_fn;
  con_jac : option con_jac_fn;
  con_type : string;
  con_args : option extra_args
}.

(** The [constraints] argument: one dictionary, or a sequence of them. *)
Inductive constraints_arg : Type :=
  | ConDict (con : constraint)
  | ConSeq (cs : list constraint).

(** [if isinstance(constraints, dict): constraints = (constraints, )] *)
Definition as_sequence (constraints : constraints_arg) : list constraint :=
  match constraints with
  | ConDict con => [con]
  | ConSeq cs => cs
  end.

(** ** numpy and scipy *)

Fixpoint res_mapM {A B : Type} (f : A -> res B) (l : list A) : res (list B) :=
  match l with
  | [] => Ok []
  | a :: l' =>
      match f a with
      | Err e => Err e
      | Ok b =>
          match res_mapM f l' with
          | Err e => Err e
          | Ok bs => Ok (b :: bs)
          end
      end
  end.

(** [np.hstack] of arrays of dimension 0 and 1: their concatenation; an
    empty sequence is refused. *)
Definition np_hstack (arrays : list ndarray) : res ndarray :=
  match arrays with
  | [] => Err (ValueError "need at least one array to concatenate")
  | _ => Ok (Vec (concat (map atleast_1d arrays)))
  end.

(** [np.vstack] of arrays of dimension 1 and 2: their rows, one block
    under the other; an empty sequence is refused, and so are rows of
    different lengths. *)
Definition same_width (rows : list (list float)) : bool :=
  match rows with
  | [] => true
  | r :: rows' => forallb (fun r' => (length r' =? length r)%nat) rows'
  end.

Definition np_vstack (arrays : list ndarray2) : res ndarray2 :=
  match arrays with
  | [] => Err (ValueError "need at least one array to concatenate")
  | _ =>
      let rows := concat (map atleast_2d arrays) in
      if same_width rows then Ok (Mat rows)
      else Err (ValueError "all the input array dimensions except for the concatenation axis must match exactly")
  end.

(** [scipy.optimize.approx_fprime(xk, f, epsilon, *args)], the forward
    differences [(f(xk + epsilon * e_k) - f(xk)) / epsilon]. The points
    at which it calls [f] are [xk] and then [approx_fprime_points]. *)
Definition unit_vector (n k : nat) : list float :=
  map (fun j => if (j =? k)%nat then 1%float else 0%float) (seq 0 n).

Definition fd_step (epsilon : float) (n k : nat) : list float :=
  map (PrimFloat.mul epsilon) (unit_vector n k).

Definition approx_fprime_points (xk : list float) (epsilon : float)
  : list (list float) :=
  map (fun k => zip_with PrimFloat.add xk (fd_step epsilon (length xk) k))
      (seq 0 (length xk)).

Definition as_float (o : pyobj) : res float :=
  match o with
  | PArr (Scalar f) => Ok f
  | PArr (Vec [f]) => Ok f
  | PArr (Vec _) => Err (ValueError "setting an array element with a sequence.")
  | PTuple _ => Err (TypeError "unsupported operand type(s) for -")
  end.

Definition approx_fprime (xk : ndarray) (f : ndarray -> res pyobj)
    (epsilon : float) : res pyobj :=
  match xk with
  | Scalar _ => Err (TypeError "len() of unsized object")
  | Vec v =>
      res_bind (f (Vec v)) (fun f0 =>
      res_bind
        (res_mapM
           (fun p =>
              res_bind (f (Vec p)) (fun fk =>
              res_bind (as_float fk) (fun a =>
              res_bind (as_float f0) (fun b =>
              Ok (PrimFloat.div (PrimFloat.sub a b)
                                (PrimFloat.mul epsilon 1%float))))))
           (approx_fprime_points v epsilon))
        (fun grad => Ok (PArr (Vec grad))))
  end.

(** ** The problem adapter *)

Module IpoptProblemWrapper.

(** What [self.jac] holds after construction: [True], or a callable
    (the user's, or the forward-difference approximation). *)
Inductive jac_field : Type :=
  | JTrue
  | JFun (g : objective_fn).

(** The attributes of an adapter. [last_value] is not assigned by the
    constructor: [None] stands for the missing attribute. [fun_with_jac]
    is [None] or the objective, a function, which is true as a
    condition. *)
Record t : Type := mk {
  fun_with_jac : option objective_fn;
  last_x : option ndarray;
  last_value : option pyobj;
  fun_ : objective_fn;
  jac : jac_field;
  args : extra_args;
  kwargs : pydict;
  _constraint_funs : list con_fn;
  _constraint_jacs : list con_jac_fn;
  _constraint_args : list extra_args;
  nfev : Z;
  njev : Z;
  nit : Z
}.

Definition set_last_x (self : t) (x : option ndarray) : t :=
  mk (fun_with_jac self) x (last_value self) (fun_ self) (jac self)
     (args self) (kwargs self) (_constraint_funs self)
     (_constraint_jacs self) (_constraint_args self)
     (nfev self) (njev self) (nit self).

Definition set_last_value (self : t) (v : option pyobj) : t :=
  mk (fun_with_jac self) (last_x self) v (fun_ self) (jac self)
     (args self) (kwargs self) (_constraint_funs self)
     (_constraint_jacs self) (_constraint_args self)
     (nfev self) (njev self) (nit self).

Definition set_nfev (self : t) (n : Z) : t :=
  mk (fun_with_jac self) (last_x self) (last_value self) (fun_ self)
     (jac self) (args self) (kwargs self) (_constraint_funs self)
     (_constraint_jacs self) (_constraint_args self)
     n (njev self) (nit self).

Definition set_njev (self : t) (n : Z) : t :=
  mk (fun_with_jac self) (last_x self) (last_value self) (fun_ self)
     (jac self) (args self) (kwargs self) (_constraint_funs self)
     (_constraint_jacs self) (_constraint_args self)
     (nfev self) n (nit self).

Definition set_nit (self : t) (n : Z) : t :=
  mk (fun_with_jac self) (last_x self) (last_value self) (fun_ self)
     (jac self) (args self) (kwargs self) (_constraint_funs self)
     (_constraint_jacs self) (_constraint_args self)
     (nfev self) (njev self) n.

(** The loop of the constructor over the constraints. The name
    [FunctionWithApproxJacobian] is bound nowhere in the module, so
    the branch of a constraint without a Jacobian raises [NameError]. *)
Fixpoint collect_constraints (constraints : list constraint)
  : res (list con_fn * list con_jac_fn * list extra_args) :=
  match constraints with
  | [] => Ok ([], [], [])
  | con :: rest =>
      let con_fun := con_fun con in
      match con_jac con with
      | None => Err (NameError "FunctionWithApproxJacobian")
      | Some con_jac =>
          let con_args := default [] (con_args con) in
          match collect_constraints rest with
          | Err e => Err e
          | Ok (funs, jacs, argss) =>
              Ok (con_fun :: funs, con_jac :: jacs, con_args :: argss)
          end
      end
  end.

(** [lambda x0, *args, **kwargs: approx_fprime(x0, fun, eps, *args, **kwargs)];
    [approx_fprime] takes no keyword argument. *)
Definition approx_jac (fun_ : objective_fn) (eps : float) : objective_fn :=
  fun x0 args kwargs =>
    match kwargs with
    | [] => approx_fprime x0 (fun x => fun_ x args []) eps
    | _ :: _ => Err (TypeError "approx_fprime() got an unexpected keyword argument")
    end.

Definition __init__ (fun_ : objective_fn) (args : extra_args)
    (kwargs : option pydict) (jac : jac_arg) (hess hessp : option pyobj)
    (constraints : constraints_arg) (eps : float) : res t :=
  match hess, hessp with
  | None, None =>
      let choice :=
        match jac with
        | JacNone => Ok (None, JFun (approx_jac fun_ eps))
        | JacTrue => Ok (Some fun_, JTrue)
        | JacCallable g => Ok (None, JFun g)
        | JacOther => Err (NotImplementedError "jac has to be bool or a function")
        end in
      match choice with
      | Err e => Err e
      | Ok (fun_with_jac, jac) =>
          match collect_constraints (as_sequence constraints) with
          | Err e => Err e
          | Ok (funs, jacs, argss) =>
              Ok (mk fun_with_jac None None fun_ jac args (default [] kwargs)
                     funs jacs argss 0 0 0)
          end
      end
  | _, _ => Err (NotImplementedError "Using hessian matrixes is not yet implemented!")
  end.

(** [return self.last_value] *)
Definition return_last_value (self : t) : res pyobj * t :=
  match last_value self with
  | Some v => (Ok v, self)
  | None => (Err (AttributeError "last_value"), self)
  end.

Definition evaluate_fun_with_grad (self : t) (x : ndarray) : res pyobj * t :=
  let stale :=
    match last_x self with
    | None => true
    | Some last => negb (np_all_eq last x)
    end in
  if stale then
    let self := set_last_x self (Some x) in
    let self := set_nfev self (nfev self + 1) in
    match fun_ self x (args self) (kwargs self) with
    | Ok v => return_last_value (set_last_value self (Some v))
    | Err e => (Err e, self)
    end
  else return_last_value self.

Definition objective (self : t) (x : ndarray) : res pyobj * t :=
  match fun_with_jac self with
  | Some _ =>
      let '(r, self) := evaluate_fun_with_grad self x in
      (res_bind r (fun v => getitem v 0), self)
  | None =>
      let self := set_nfev self (nfev self + 1) in
      (fun_ self x (args self) (kwargs self), self)
  end.

Definition gradient (self : t) (x : ndarray) : res pyobj * t :=
  match fun_with_jac self with
  | Some _ =>
      let '(r, self) := evaluate_fun_with_grad self x in
      (res_bind r (fun v => getitem v 1), self)
  | None =>
      let self := set_njev self (njev self + 1) in
      match jac self with
      | JFun g => (g x (args self) (kwargs self), self)
      | JTrue => (Err (TypeError "'bool' object is not callable"), self)
      end
  end.

Definition constraints (self : t) (x : ndarray) : res ndarray :=
  res_bind
    (res_mapM (fun '(fun_, args) => fun_ x args)
              (zip (_constraint_funs self) (_constraint_args self)))
    np_hstack.

Definition jacobian (self : t) (x : ndarray) : res ndarray2 :=
  res_bind
    (res_mapM (fun '(fun_, args) => fun_ x args)
              (zip (_constraint_jacs self) (_constraint_args self)))
    np_vstack.

Definition intermediate (self : t) (alg_mod iter_count : Z)
    (obj_value inf_pr inf_du mu d_norm regularization_size
     alpha_du alpha_pr : float) (ls_trials : Z) : t :=
  set_nit self iter_count.

End IpoptProblemWrapper.

(** ** The bound translators *)

Definition get_bounds (bounds : option (list (option float * option float)))
  : option (list (option float)) * option (list (option float)) :=
  match bounds with
  | None => (None, None)
  | Some bounds =>
      let lb := map fst bounds in
      let ub := map snd bounds in
      (Some lb, Some ub)
  end.

(** [np.zeros(m)] and [INF*np.ones(m)]. *)
Definition np_zeros (m : nat) : list float := repeat 0%float m.
Definition np_ones (m : nat) : list float := repeat 1%float m.
Definition np_scale (a : float) (v : list float) : list float :=
  map (PrimFloat.mul a) v.

(** The loop of [get_constraint_bounds], with the lists [cl] and [cu]
    built so far. *)
Fixpoint get_constraint_bounds_loop (constraints : list constraint)
    (x0 : ndarray) (INF : float) (cl cu : list float)
  : res (list float * list float) :=
  match constraints with
  | [] => Ok (cl, cu)
  | con :: rest =>
      match con_fun con x0 (default [] (con_args con)) with
      | Err e => Err e
      | Ok v =>
          let m := length (atleast_1d v) in
          let cl := cl ++ np_zeros m in
          if String.eqb (con_type con) "eq" then
            get_constraint_bounds_loop rest x0 INF cl (cu ++ np_zeros m)
          else if String.eqb (con_type con) "ineq" then
            get_constraint_bounds_loop rest x0 INF cl
              (cu ++ np_scale INF (np_ones m))
          else Err (ValueError (con_type con))
      end
  end.

Definition get_constraint_bounds (constraints : constraints_arg)
    (x0 : ndarray) (INF : float) : res (list float * list float) :=
  get_constraint_bounds_loop (as_sequence constraints) x0 INF [] [].

(** The default of the parameter [INF], and of [eps] in the adapter. *)
Definition INF_default : float := 1e19%float.
Definition eps_default : float := 0x1.5798ee2308c3ap-27%float. (* 1e-8 *)

(** ** The store, the solver and the trace of the calls made to it *)

Abbreviation loc := positive.

Record nlp_t : Type := {
  nlp_n : nat;
  nlp_m : nat;
  nlp_lb : option (list (option float));
  nlp_ub : option (list (option float));
  nlp_cl : list float;
  nlp_cu : list float
}.

(** The [info] dictionary returned by [solve]. *)
Record info_t : Type := {
  info_status : Z;
  info_status_msg : string;
  info_obj_val : float
}.

(** The collaborator [cyipopt]: the constructor [cyipopt.problem], which
    accepts its arguments or raises; [addOption], likewise; and [solve],
    which runs the iterations, calling the adapter's operations as it
    pleases, and returns the solution and [info], or raises. *)
Record cyipopt : Type := {
  problem : nlp_t -> res unit;
  addOption : nlp_t -> string -> pyval -> res unit;
  solve : nlp_t -> list (string * pyval) -> IpoptProblemWrapper.t ->
          list float ->
          res (list float * info_t) * IpoptProblemWrapper.t
}.

Inductive event : Type :=
  | EvProblem (nlp : nlp_t)
  | EvAddOption (option : string) (value : pyval)
  | EvSolve (x0 : list float).

Record world : Type := {
  heap : gmap loc pydict;
  trace : list event
}.

(** Computations that read and write the store, call the solver and may
    raise. *)
Definition M (A : Type) : Type := world -> res A * world.

Definition ret {A : Type} (a : A) : M A := fun w => (Ok a, w).

Definition bind {A B : Type} (c : M A) (k : A -> M B) : M B :=
  fun w =>
    match c w with
    | (Ok a, w') => k a w'
    | (Err e, w') => (Err e, w')
    end.

Definition lift {A : Type} (r : res A) : M A := fun w => (r, w).

#[global] Instance M_ret : MRet M := @ret.
#[global] Instance M_bind : MBind M := fun A B k c => bind c k.

Definition emit (ev : event) : M unit :=
  fun w => (Ok tt, {| heap := heap w; trace := trace w ++ [ev] |}).

(** The dictionary a location names (a location always names one). *)
Definition deref (l : loc) (w : world) : pydict := default [] (heap w !! l).

Definition store (l : loc) (d : pydict) (w : world) : world :=
  {| heap := <[l := d]> (heap w); trace := trace w |}.

(** [{}]: a new, empty dictionary. *)
Definition new_dict : M loc :=
  fun w => let l := fresh (dom (heap w)) in (Ok l, store l [] w).

(** [k in d], [d.pop(k)], [d[k] = v] and [d.items()] on the dictionary
    named by [l]. *)
Definition dict_contains (l : loc) (k : string) : M bool :=
  fun w => (Ok (dict_in k (deref l w)), w).

Definition dict_pop (l : loc) (k : string) : M pyval :=
  fun w =>
    match dict_get k (deref l w) with
    | Some v => (Ok v, store l (dict_del k (deref l w)) w)
    | None => (Err (KeyError k), w)
    end.

Definition dict_setitem (l : loc) (k : string) (v : pyval) : M unit :=
  fun w => (Ok tt, store l (dict_set k v (deref l w)) w).

Definition dict_items (l : loc) : M (list (string * pyval)) :=
  fun w => (Ok (deref l w), w).

(** ** The option translator *)

Definition replace_option (options : loc) (oldname newname : string) : M unit :=
  has_old ← dict_contains options oldname;
  if has_old : bool then
    has_new ← dict_contains options newname;
    if negb has_new then
      v ← dict_pop options oldname;
      dict_setitem options newname v
    else ret tt
  else ret tt.

(** ** The entry operation *)

Module OptimizeResult.
Record t : Type := mk {
  x : ndarray;
  success : bool;
  status : Z;
  message : string;
  fun_ : float;
  info : info_t;
  nfev : Z;
  njev : Z;
  nit : Z
}.
End OptimizeResult.

(** [cyipopt.problem(n=..., m=..., problem_obj=problem, lb=..., ...)] *)
Definition cyipopt_problem (cy : cyipopt) (nlp : nlp_t) : M unit :=
  emit (EvProblem nlp);;
  lift (problem cy nlp).

(** The loop over [options.items()]: a [TypeError] of [addOption] is
    raised again as the [TypeError] that names the option. *)
Fixpoint add_options (cy : cyipopt) (nlp : nlp_t)
    (items : list (string * pyval)) : M unit :=
  match items with
  | [] => ret tt
  | (option, value) :: rest =>
      emit (EvAddOption option value);;
      match addOption cy nlp option value with
      | Ok _ => add_options cy nlp rest
      | Err (TypeError e) => lift (Err (InvalidOption option value e))
      | Err e => lift (Err e)
      end
  end.

(** [nlp.solve(_x0)]; the adapter comes back as the solver left it. *)
Definition nlp_solve (cy : cyipopt) (nlp : nlp_t)
    (options : list (string * pyval)) (problem : IpoptProblemWrapper.t)
    (_x0 : list float)
  : M (list float * info_t * IpoptProblemWrapper.t) :=
  emit (EvSolve _x0);;
  let '(r, problem) := solve cy nlp options problem _x0 in
  lift (res_bind r (fun '(x, info) => Ok (x, info, problem))).

(** [tol or 1e-8] *)
Definition tol_or_default (tol : option float) : float :=
  match tol with
  | None => 0x1.5798ee2308c3ap-27%float
  | Some t => if PrimFloat.eqb t 0%float then 0x1.5798ee2308c3ap-27%float else t
  end.

(** [if key not in options: options[key] = value] *)
Definition set_default (options : loc) (key : string) (value : pyval) : M unit :=
  present ← dict_contains options key;
  if present : bool then ret tt else dict_setitem options key value.

(** The parameters [method] and [callback] of the source are never
    read; they are left out. *)
Definition minimize_ipopt (cy : cyipopt) (fun_ : objective_fn) (x0 : ndarray)
    (args : extra_args) (kwargs : option pydict) (jac : jac_arg)
    (hess hessp : option pyobj)
    (bounds : option (list (option float * option float)))
    (constraints : constraints_arg) (tol : option float)
    (options : option loc) : M OptimizeResult.t :=
  let _x0 := atleast_1d x0 in
  problem ← lift (IpoptProblemWrapper.__init__ fun_ args kwargs jac hess hessp
                    constraints eps_default);
  let '(lb, ub) := get_bounds bounds in
  '(cl, cu) ← lift (get_constraint_bounds constraints x0 INF_default);
  options ← match options with
            | None => new_dict
            | Some options => ret options
            end;
  let nlp := {| nlp_n := length _x0; nlp_m := length cl;
                nlp_lb := lb; nlp_ub := ub; nlp_cl := cl; nlp_cu := cu |} in
  cyipopt_problem cy nlp;;
  replace_option options "disp" "print_level";;
  replace_option options "maxiter" "max_iter";;
  set_default options "print_level" (VInt 0);;
  set_default options "tol" (VFloat (tol_or_default tol));;
  set_default options "mu_strategy" (VStr "adaptive");;
  has_hessian_approximation ← dict_contains options "hessian_approximation";
  (if negb has_hessian_approximation then
     match hess, hessp with
     | None, None =>
         dict_setitem options "hessian_approximation" (VStr "limited-memory")
     | _, _ => ret tt
     end
   else ret tt);;
  items ← dict_items options;
  add_options cy nlp items;;
  '(x, info, problem) ← nlp_solve cy nlp items problem _x0;
  x ← (if shape_is_unit x0 then
         match x with
         | x_0 :: _ => ret (Scalar x_0)
         | [] => lift (Err (IndexError "index 0 is out of bounds"))
         end
       else ret (Vec x));
  ret (OptimizeResult.mk x (Z.eqb (info_status info) 0) (info_status info)
         (info_status_msg info) (info_obj_val info) info
         (IpoptProblemWrapper.nfev problem)
         (IpoptProblemWrapper.njev problem)
         (IpoptProblemWrapper.nit problem)).

(** ** The life of an adapter

    Between its construction and the end of the run an adapter is
    changed only by the operations the solver calls on it. [step] is one
    such call; [rtc step] relates an adapter to each of its later
    states. [constraints] and [jacobian] assign nothing. *)
Inductive step : IpoptProblemWrapper.t -> IpoptProblemWrapper.t -> Prop :=
  | step_objective self x :
      step self (snd (IpoptProblemWrapper.objective self x))
  | step_gradient self x :
      step self (snd (IpoptProblemWrapper.gradient self x))
  | step_intermediate self alg_mod iter_count obj_value inf_pr inf_du mu
      d_norm regularization_size alpha_du alpha_pr ls_trials :
      step self
        (IpoptProblemWrapper.intermediate self alg_mod iter_count obj_value
           inf_pr inf_du mu d_norm regularization_size alpha_du alpha_pr
           ls_trials).

(** The attributes that are assigned by the constructor only. *)
Definition same_setup (a b : IpoptProblemWrapper.t) : Prop :=
  IpoptProblemWrapper.fun_with_jac b = IpoptProblemWrapper.fun_with_jac a /\
  IpoptProblemWrapper.fun_ b = IpoptProblemWrapper.fun_ a /\
  IpoptProblemWrapper.jac b = IpoptProblemWrapper.jac a /\
  IpoptProblemWrapper.args b = IpoptProblemWrapper.args a /\
  IpoptProblemWrapper.kwargs b = IpoptProblemWrapper.kwargs a /\
  IpoptProblemWrapper._constraint_funs b = IpoptProblemWrapper._constraint_funs a /\
  IpoptProblemWrapper._constraint_jacs b = IpoptProblemWrapper._constraint_jacs a /\
  IpoptProblemWrapper._constraint_args b = IpoptProblemWrapper._constraint_args a.

(** The cache of the combined evaluator does not hold [x]. *)
Definition cache_miss (self : IpoptProblemWrapper.t) (x : ndarray) : Prop :=
  match IpoptProblemWrapper.last_x self with
  | None => True
  | Some last => np_all_eq last x = false
  end.

(** ** The option translation as a function on dictionaries

    What [replace_option] and the defaults of [minimize_ipopt] make of
    the entries of the dictionary they are applied to. *)
Definition replace_option_entries (oldname newname : string) (d : pydict)
  : pydict :=
  match dict_get oldname d with
  | Some v =>
      if dict_in newname d then d
      else dict_set newname v (dict_del oldname d)
  | None => d
  end.

Definition set_default_entries (key : string) (value : pyval) (d : pydict)
  : pydict :=
  if dict_in key d then d else dict_set key value d.

Definition translated_entries (tol : option float) (d : pydict) : pydict :=
  set_default_entries "hessian_approximation" (VStr "limited-memory")
    (set_default_entries "mu_strategy" (VStr "adaptive")
       (set_default_entries "tol" (VFloat (tol_or_default tol))
          (set_default_entries "print_level" (VInt 0)
             (replace_option_entries "maxiter" "max_iter"
                (replace_option_entries "disp" "print_level" d))))).

(** ** Examples used to exercise the definitions *)

(** A combined evaluator: the value [1] and the point as its gradient. *)
Definition example_combined : objective_fn :=
  fun x _ _ => Ok (PTuple [Scalar 1%float; x]).

(** The objective [x0 * x0 + x1] of two variables. *)
Definition example_objective : objective_fn :=
  fun x _ _ =>
    match x with
    | Vec [a; b] =>
        Ok (PArr (Scalar (PrimFloat.add (PrimFloat.mul a a) b)))
    | _ => Err (Raised "two variables expected")
    end.

(** Constraints: [x == 0] without a Jacobian, [1 >= 0] with a one-row
    Jacobian, [x == 0] with a Jacobian of two rows, and one with the
    unknown type ['le']. *)
Definition example_con_nojac : constraint :=
  {| con_fun := fun x _ => Ok x; con_jac := None;
     con_type := "eq"; con_args := None |}.

Definition example_con_ineq : constraint :=
  {| con_fun := fun x _ => Ok (Scalar 1%float);
     con_jac := Some (fun x _ => Ok (Row (atleast_1d x)));
     con_type := "ineq"; con_args := None |}.

Definition example_con_eq : constraint :=
  {| con_fun := fun x _ => Ok x;
     con_jac := Some (fun x _ => Ok (Mat [atleast_1d x; atleast_1d x]));
     con_type := "eq"; con_args := None |}.

Definition example_con_le : constraint :=
  {| con_fun := fun x _ => Ok x;
     con_jac := Some (fun x _ => Ok (Mat [atleast_1d x; atleast_1d x]));
     con_type := "le"; con_args := None |}.

(** A constraint [x == 0] whose function returns the point itself, as
    many values as there are variables, and whose [jac] returns an
    array of dimension 1, which is stacked as one row. *)
Definition example_con_flat : constraint :=
  {| con_fun := fun x _ => Ok x;
     con_jac := Some (fun x _ => Ok (Row (atleast_1d x)));
     con_type := "eq"; con_args := None |}.

(** A solver that accepts everything, asks for the objective and the
    gradient at the starting point and returns it with status [0]; it
    refuses a starting point that has not the dimension of the problem. *)
Definition example_solver : cyipopt :=
  {| problem := fun _ => Ok tt;
     addOption := fun _ _ _ => Ok tt;
     solve := fun nlp options problem x0 =>
       if (length x0 =? nlp_n nlp)%nat then
         let problem := snd (IpoptProblemWrapper.objective problem (Vec x0)) in
         let problem := snd (IpoptProblemWrapper.gradient problem (Vec x0)) in
         (Ok (x0, {| info_status := 0; info_status_msg := "solved";
                     info_obj_val := 1%float |}), problem)
       else (Err (Raised "wrong dimension"), problem) |}.

Definition example_point : ndarray := Vec [1%float; 2%float].
Definition example_other_point : ndarray := Vec [1%float; 3%float].

(** A store whose object [1] is the dictionary
    [{'disp': 5, 'print_level': 3}]. *)
Definition example_world : world :=
  {| heap := {[ 1%positive := [("disp", VInt 5); ("print_level", VInt 3)] ]};
     trace := [] |}.

(** A store whose object [1] is [{'disp': 5, 'maxiter': 100}]. *)
Definition example_world_aliases : world :=
  {| heap := {[ 1%positive := [("disp", VInt 5); ("maxiter", VInt 100)] ]};
     trace := [] |}.

(** ** The vocabulary of the properties *)

Import IpoptProblemWrapper (fun_with_jac, last_x, last_value, nfev, njev, nit).

(** [m_i]: the number of values of a constraint at the probe point. *)
Definition arity (x0 : ndarray) (con : constraint) : nat :=
  match con_fun con x0 (default [] (con_args con)) with
  | Ok v => length (atleast_1d v)
  | Err _ => 0%nat
  end.

Definition defined_at (x0 : ndarray) (con : constraint) : Prop :=
  is_ok (con_fun con x0 (default [] (con_args con))) = true.

Definition known_type (con : constraint) : Prop :=
  con_type con = "eq" \/ con_type con = "ineq".

(** The upper bound of the entries of a constraint: [0] for an
    equality, the sentinel for an inequality. *)
Definition upper_bound (con : constraint) : float :=
  if String.eqb (con_type con) "eq" then 0%float else INF_default.

Definition unknown_type (con : constraint) : Prop :=
  con_type con <> "eq" /\ con_type con <> "ineq".

Definition the_nlp (x0 : ndarray)
    (bounds : option (list (option float * option float)))
    (cl cu : list float) : nlp_t :=
  {| nlp_n := length (atleast_1d x0); nlp_m := length cl;
     nlp_lb := fst (get_bounds bounds); nlp_ub := snd (get_bounds bounds);
     nlp_cl := cl; nlp_cu := cu |}.

(** The dictionary the options are written into: the caller's, or a new
    one. *)
Definition options_object (options : option loc) (w : world) : loc :=
  match options with
  | Some l => l
  | None => fresh (dom (heap w))
  end.

Definition with_options_object (options : option loc) (w : world) : world :=
  match options with
  | Some _ => w
  | None => store (fresh (dom (heap w))) [] w
  end.

Definition unwrap (x0 : ndarray) (x : list float) : res ndarray :=
  if shape_is_unit x0 then
    match x with
    | x_0 :: _ => Ok (Scalar x_0)
    | [] => Err (IndexError "index 0 is out of bounds")
    end
  else Ok (Vec x).

Definition assemble (x0 : ndarray) (x : list float) (info : info_t)
    (problem : IpoptProblemWrapper.t) : res OptimizeResult.t :=
  res_bind (unwrap x0 x) (fun x =>
    Ok (OptimizeResult.mk x (Z.eqb (info_status info) 0) (info_status info)
          (info_status_msg info) (info_obj_val info) info
          (nfev problem) (njev problem) (nit problem))).

Definition after_setup (cy : cyipopt) (nlp : nlp_t) (x0 : ndarray)
    (items : pydict) (problem : IpoptProblemWrapper.t) (w : world)
  : res OptimizeResult.t * world :=
  match add_options cy nlp items w with
  | (Err e, w) => (Err e, w)
  | (Ok _, w) =>
      let w := {| heap := heap w; trace := trace w ++ [EvSolve (atleast_1d x0)] |} in
      match solve cy nlp items problem (atleast_1d x0) with
      | (Err e, _) => (Err e, w)
      | (Ok (x, info), problem) => (assemble x0 x info problem, w)
      end
  end.

Definition option_event (entry : string * pyval) : event :=
  EvAddOption (fst entry) (snd entry).

(** The keys that are given a default. *)
Definition default_of (tol : option float) (key : string) : option pyval :=
  if String.eqb key "tol" then Some (VFloat (tol_or_default tol))
  else if String.eqb key "mu_strategy" then Some (VStr "adaptive")
  else if String.eqb key "hessian_approximation" then
    Some (VStr "limited-memory")
  else None.

Definition is_known (con : constraint) : bool :=
  String.eqb (con_type con) "eq" || String.eqb (con_type con) "ineq".

(** The first constraint of the list whose type is neither ['eq'] nor
    ['ineq']. *)
Definition first_unknown (constraints : list constraint) : option constraint :=
  List.find (fun con => negb (is_known con)) constraints.

Definition default_keys : list string :=
  ["print_level"; "tol"; "mu_strategy"; "hessian_approximation"].

(** The cache of the combined evaluator holds a point together with the
    value of the objective at that point. *)
Definition coherent (self : IpoptProblemWrapper.t) : Prop :=
  match last_x self with
  | None => last_value self = None
  | Some x =>
      exists v,
        IpoptProblemWrapper.fun_ self x (IpoptProblemWrapper.args self)
          (IpoptProblemWrapper.kwargs self) = Ok v /\
        last_value self = Some v
  end.

(** The keys of a dictionary, in order. *)
Definition dict_keys (d : pydict) : list string := map fst d.

(** The names the option translation may add to a dictionary. *)
Definition translation_keys : list string :=
  ["print_level"; "max_iter"; "tol"; "mu_strategy"; "hessian_approximation"].

(** The calls of the solver that evaluate: [objective] and [gradient]. *)
Inductive evaluation : IpoptProblemWrapper.t -> IpoptProblemWrapper.t -> Prop :=
  | evaluation_objective self x :
      evaluation self (snd (IpoptProblemWrapper.objective self x))
  | evaluation_gradient self x :
      evaluation self (snd (IpoptProblemWrapper.gradient self x)).

(** * Properties *)

(** ** The adapter: construction and invariants *)

Lemma init_inv fun_ args kwargs jac hess hessp constraints eps self :
  IpoptProblemWrapper.__init__ fun_ args kwargs jac hess hessp constraints eps
    = Ok self ->
  hess = None /\ hessp = None /\ jac <> JacOther /\
  fun_with_jac self = match jac with JacTrue => Some fun_ | _ => None end /\
  IpoptProblemWrapper.jac self =
    match jac with
    | JacNone => IpoptProblemWrapper.JFun (IpoptProblemWrapper.approx_jac fun_ eps)
    | JacCallable g => IpoptProblemWrapper.JFun g
    | _ => IpoptProblemWrapper.JTrue
    end /\
  IpoptProblemWrapper.fun_ self = fun_ /\
  IpoptProblemWrapper.args self = args /\
  IpoptProblemWrapper.kwargs self = default [] kwargs /\
  last_x self = None /\ last_value self = None /\
  nfev self = 0 /\ njev self = 0 /\ nit self = 0 /\
  IpoptProblemWrapper.collect_constraints (as_sequence constraints)
    = Ok (IpoptProblemWrapper._constraint_funs self,
          IpoptProblemWrapper._constraint_jacs self,
          IpoptProblemWrapper._constraint_args self).
Proof.
  unfold IpoptProblemWrapper.__init__.
  destruct hess, hessp; try discriminate.
  destruct (IpoptProblemWrapper.collect_constraints (as_sequence constraints))
    as [[[funs jacs] argss]|e] eqn:Hc;
    destruct jac; try discriminate; intros [= <-]; cbn;
    repeat split; congruence.
Qed.

Lemma evaluate_same_setup self x :
  same_setup self (snd (IpoptProblemWrapper.evaluate_fun_with_grad self x)).
Proof.
  unfold IpoptProblemWrapper.evaluate_fun_with_grad,
    IpoptProblemWrapper.return_last_value, same_setup.
  destruct (match last_x self with
            | Some last => negb (np_all_eq last x)
            | None => true
            end); cbn.
  - destruct (IpoptProblemWrapper.fun_ self x _ _); cbn; repeat split.
  - destruct (last_value self); cbn; repeat split.
Qed.

Lemma step_same_setup a b : step a b -> same_setup a b.
Proof.
  destruct 1; unfold IpoptProblemWrapper.objective,
    IpoptProblemWrapper.gradient, IpoptProblemWrapper.intermediate.
  - destruct (fun_with_jac self) eqn:E.
    + pose proof (evaluate_same_setup self x) as H.
      destruct (IpoptProblemWrapper.evaluate_fun_with_grad self x); exact H.
    + cbn. unfold same_setup; cbn; repeat split.
  - destruct (fun_with_jac self) eqn:E.
    + pose proof (evaluate_same_setup self x) as H.
      destruct (IpoptProblemWrapper.evaluate_fun_with_grad self x); exact H.
    + cbn. destruct (IpoptProblemWrapper.jac self);
        unfold same_setup; cbn; repeat split.
  - unfold same_setup; cbn; repeat split.
Qed.

Lemma same_setup_trans a b c : same_setup a b -> same_setup b c -> same_setup a c.
Proof. unfold same_setup; intuition congruence. Qed.

Lemma rtc_same_setup a b : rtc step a b -> same_setup a b.
Proof.
  induction 1 as [a|a b c Hab _ IH].
  - unfold same_setup; repeat split.
  - eapply same_setup_trans; [apply step_same_setup; exact Hab | exact IH].
Qed.

(** A miss of the cache: one call of the objective, whose result
    replaces the cache. *)
Lemma evaluate_miss self x :
  cache_miss self x ->
  let r := fst (IpoptProblemWrapper.evaluate_fun_with_grad self x) in
  let self' := snd (IpoptProblemWrapper.evaluate_fun_with_grad self x) in
  nfev self' = nfev self + 1 /\
  njev self' = njev self /\
  last_x self' = Some x /\
  forall v,
    IpoptProblemWrapper.fun_ self x (IpoptProblemWrapper.args self)
      (IpoptProblemWrapper.kwargs self) = Ok v ->
    last_value self' = Some v /\ r = Ok v.
Proof.
  unfold cache_miss, IpoptProblemWrapper.evaluate_fun_with_grad,
    IpoptProblemWrapper.return_last_value.
  intros Hmiss.
  assert (match last_x self with
          | Some last => negb (np_all_eq last x)
          | None => true
          end = true) as ->.
  { destruct (last_x self); [rewrite Hmiss|]; reflexivity. }
  cbn.
  destruct (IpoptProblemWrapper.fun_ self x _ _) as [v|e]; cbn.
  - repeat split; congruence.
  - repeat split; discriminate.
Qed.

(** A hit of the cache: nothing is assigned. *)
Lemma evaluate_hit self x last :
  last_x self = Some last -> np_all_eq last x = true ->
  snd (IpoptProblemWrapper.evaluate_fun_with_grad self x) = self.
Proof.
  unfold IpoptProblemWrapper.evaluate_fun_with_grad,
    IpoptProblemWrapper.return_last_value.
  intros -> ->. cbn. destruct (last_value self); reflexivity.
Qed.

Lemma objective_combined self x f :
  fun_with_jac self = Some f ->
  snd (IpoptProblemWrapper.objective self x)
    = snd (IpoptProblemWrapper.evaluate_fun_with_grad self x) /\
  fst (IpoptProblemWrapper.objective self x)
    = res_bind (fst (IpoptProblemWrapper.evaluate_fun_with_grad self x))
        (fun v => getitem v 0).
Proof.
  unfold IpoptProblemWrapper.objective. intros ->.
  destruct (IpoptProblemWrapper.evaluate_fun_with_grad self x); split; reflexivity.
Qed.

Lemma gradient_combined self x f :
  fun_with_jac self = Some f ->
  snd (IpoptProblemWrapper.gradient self x)
    = snd (IpoptProblemWrapper.evaluate_fun_with_grad self x) /\
  fst (IpoptProblemWrapper.gradient self x)
    = res_bind (fst (IpoptProblemWrapper.evaluate_fun_with_grad self x))
        (fun v => getitem v 1).
Proof.
  unfold IpoptProblemWrapper.gradient. intros ->.
  destruct (IpoptProblemWrapper.evaluate_fun_with_grad self x); split; reflexivity.
Qed.

(** ** Combined evaluation *)

(** C1. An adapter constructed with [jac=True], at any moment of its
    life, asked for the objective at a point [x] that its cache does not
    hold (any point, for a new adapter): the objective is evaluated
    once, [nfev] grows by exactly 1, [njev] by 0, and the cache is
    replaced by [x] and the value at [x]. Asked next for the gradient at
    the identical point (a point equal to itself under the exact
    comparison [np.all(last_x == x)] of the source), the counters stay
    there: [nfev] has grown by exactly 1 and [njev] by 0. Asked instead
    for the objective at a point that differs from [x] under that
    comparison, [nfev] grows once more: by exactly 2 for the two distinct
    points. *)
Theorem combined_evaluation_counters
    fun_ args kwargs constraints eps self0 self x :
  IpoptProblemWrapper.__init__ fun_ args kwargs JacTrue None None
    constraints eps = Ok self0 ->
  rtc step self0 self ->
  cache_miss self x ->
  let after_objective := snd (IpoptProblemWrapper.objective self x) in
  let after_gradient :=
    snd (IpoptProblemWrapper.gradient after_objective x) in
  (nfev after_objective = nfev self + 1 /\
   njev after_objective = njev self /\
   last_x after_objective = Some x /\
   forall v, fun_ x args (default [] kwargs) = Ok v ->
             last_value after_objective = Some v) /\
  (np_all_eq x x = true ->
   nfev after_gradient = nfev self + 1 /\
   njev after_gradient = njev self) /\
  (forall x', np_all_eq x x' = false ->
     let after_second :=
       snd (IpoptProblemWrapper.objective after_objective x') in
     nfev after_second = nfev self + 2 /\
     njev after_second = njev self /\
     last_x after_second = Some x').
Proof.
  intros Hinit Hlife Hmiss. cbv zeta.
  destruct (init_inv _ _ _ _ _ _ _ _ _ Hinit)
    as (_ & _ & _ & Hmode0 & _ & Hfun0 & Hargs0 & Hkw0 & _).
  destruct (rtc_same_setup _ _ Hlife)
    as (Hmode & Hfun & _ & Hargs & Hkw & _).
  rewrite Hmode0 in Hmode.
  destruct (objective_combined self x fun_ Hmode) as [Hobj _].
  destruct (evaluate_miss self x Hmiss) as (Hn & Hj & Hx & Hv).
  rewrite <- Hobj in Hn, Hj, Hx, Hv.
  assert (fun_with_jac (snd (IpoptProblemWrapper.objective self x))
          = Some fun_) as Hmode1.
  { destruct (step_same_setup _ _ (step_objective self x)) as [-> _].
    exact Hmode. }
  split; [|split].
  - repeat split; try assumption.
    intros v Hfv. apply Hv. congruence.
  - intros Hself.
    destruct (gradient_combined _ x fun_ Hmode1) as [-> _].
    rewrite (evaluate_hit _ x x Hx Hself). split; assumption.
  - intros x' Hdiff.
    destruct (objective_combined _ x' fun_ Hmode1) as [-> _].
    assert (cache_miss (snd (IpoptProblemWrapper.objective self x)) x')
      as Hmiss'.
    { unfold cache_miss. rewrite Hx. exact Hdiff. }
    destruct (evaluate_miss _ x' Hmiss') as (Hn' & Hj' & Hx' & _).
    rewrite Hn', Hj', Hx', Hn, Hj. repeat split; lia.
Qed.

Lemma combined_evaluation_counters_witness :
  let self0 :=
    IpoptProblemWrapper.mk (Some example_combined) None None example_combined
      IpoptProblemWrapper.JTrue [] [] [] [] [] 0 0 0 in
  let after_objective :=
    snd (IpoptProblemWrapper.objective self0 example_point) in
  let after_gradient :=
    snd (IpoptProblemWrapper.gradient after_objective example_point) in
  (nfev after_objective = 1 /\ nfev after_gradient = 1 /\
   njev after_gradient = 0) /\
  nfev (snd (IpoptProblemWrapper.objective after_objective
               example_other_point)) = 2.
Proof.
  intros self0 after_objective after_gradient.
  pose proof (combined_evaluation_counters example_combined [] None
                (ConSeq []) eps_default self0 self0 example_point
                eq_refl (rtc_refl _ _) I) as (H1 & H2 & H3).
  destruct H1 as (Hn & _).
  destruct (H2 eq_refl) as (Hg & Hj).
  destruct (H3 example_other_point eq_refl) as (Hs & _).
  repeat split; assumption.
Defined.

(** ** Separate gradient *)

Lemma res_mapM_ok {A B : Type} (f : A -> res B) (g : A -> B) l :
  (forall a, In a l -> f a = Ok (g a)) -> res_mapM f l = Ok (map g l).
Proof.
  induction l as [|a l IH]; intros H; cbn; [reflexivity|].
  rewrite (H a (or_introl eq_refl)), IH; [reflexivity|].
  intros b Hb. apply H. right. exact Hb.
Qed.

Lemma approx_fprime_points_length xk epsilon :
  length (approx_fprime_points xk epsilon) = length xk.
Proof. unfold approx_fprime_points. rewrite length_map. apply length_seq. Qed.

(** Where the function is defined and scalar at [xk] and at the shifted
    points, [approx_fprime] returns the quotients of the differences:
    one value of the function for [xk] and one for each of the
    [length xk] shifted points. *)
Lemma approx_fprime_ok (xk : list float) (f : ndarray -> res pyobj)
    (value : list float -> float) epsilon :
  (forall p, p = xk \/ In p (approx_fprime_points xk epsilon) ->
             f (Vec p) = Ok (PArr (Scalar (value p)))) ->
  approx_fprime (Vec xk) f epsilon =
    Ok (PArr (Vec (map (fun p => PrimFloat.div
                                   (PrimFloat.sub (value p) (value xk))
                                   (PrimFloat.mul epsilon 1%float))
                       (approx_fprime_points xk epsilon)))).
Proof.
  intros H. unfold approx_fprime.
  rewrite (H xk (or_introl eq_refl)). cbn.
  erewrite res_mapM_ok; [reflexivity|].
  intros p Hp. cbn. rewrite (H p (or_intror Hp)). reflexivity.
Qed.

(** C10. An adapter constructed with a [jac] that is not [True] (a
    callable, or [None], for which the forward-difference approximation
    is synthesized), at any moment of its life: every call of [gradient]
    adds exactly 1 to [njev] and leaves [nfev] as it is. The call returns
    what the user's gradient returns, or the forward-difference
    approximation; the latter, where the objective is defined, is
    computed from the values of the objective at [n + 1] points ([x] and
    [n] shifted points), none of which is counted in [nfev]. *)
Theorem separate_gradient_counters
    fun_ args kwargs jac constraints eps self0 self x :
  IpoptProblemWrapper.__init__ fun_ args kwargs jac None None
    constraints eps = Ok self0 ->
  jac <> JacTrue ->
  rtc step self0 self ->
  let after := snd (IpoptProblemWrapper.gradient self x) in
  let result := fst (IpoptProblemWrapper.gradient self x) in
  njev after = njev self + 1 /\
  nfev after = nfev self /\
  (forall g, jac = JacCallable g ->
     result = g x args (default [] kwargs)) /\
  (jac = JacNone ->
     result = IpoptProblemWrapper.approx_jac fun_ eps x args
                (default [] kwargs)) /\
  (jac = JacNone ->
   forall xk value,
     x = Vec xk -> default [] kwargs = [] ->
     (forall p, p = xk \/ In p (approx_fprime_points xk eps) ->
                fun_ (Vec p) args [] = Ok (PArr (Scalar (value p)))) ->
     result =
       Ok (PArr (Vec (map (fun p => PrimFloat.div
                                      (PrimFloat.sub (value p) (value xk))
                                      (PrimFloat.mul eps 1%float))
                          (approx_fprime_points xk eps)))) /\
     length (xk :: approx_fprime_points xk eps) = S (length xk)).
Proof.
  intros Hinit Hjac Hlife. cbv zeta.
  destruct (init_inv _ _ _ _ _ _ _ _ _ Hinit)
    as (_ & _ & Hother & Hmode0 & Hjac0 & _ & Hargs0 & Hkw0 & _).
  destruct (rtc_same_setup _ _ Hlife)
    as (Hmode & _ & Hjacf & Hargs & Hkw & _).
  rewrite Hmode0 in Hmode. rewrite Hjac0 in Hjacf.
  rewrite Hargs0 in Hargs. rewrite Hkw0 in Hkw.
  assert (fun_with_jac self = None) as Hnone.
  { rewrite Hmode. destruct jac; congruence. }
  unfold IpoptProblemWrapper.gradient. rewrite Hnone. cbn.
  rewrite Hjacf, Hargs, Hkw.
  destruct jac as [| |g|]; try congruence; cbn.
  - split; [lia|]. split; [reflexivity|].
    split; [intros g; discriminate|]. split; [reflexivity|].
    intros _ xk value -> Hkw' Hval. rewrite Hkw'. cbn.
    split;
      [exact (approx_fprime_ok xk (fun x => fun_ x args []) value eps Hval)|].
    rewrite approx_fprime_points_length. reflexivity.
  - split; [lia|]. split; [reflexivity|].
    split; [intros g' [= <-]; reflexivity|].
    split; discriminate.
Qed.

Lemma separate_gradient_counters_witness :
  let self0 :=
    IpoptProblemWrapper.mk None None None example_objective
      (IpoptProblemWrapper.JFun
         (IpoptProblemWrapper.approx_jac example_objective eps_default))
      [] [] [] [] [] 0 0 0 in
  let after := snd (IpoptProblemWrapper.gradient self0 example_point) in
  njev after = 1 /\ nfev after = 0.
Proof.
  intros self0 after.
  pose proof (separate_gradient_counters example_objective [] None JacNone
                (ConSeq []) eps_default self0 self0 example_point
                eq_refl ltac:(discriminate) (rtc_refl _ _)) as (H1 & H2 & _).
  split; assumption.
Defined.

(** ** Constraints without a Jacobian *)

Lemma collect_constraints_nojac constraints :
  Exists (fun con => con_jac con = None) constraints ->
  IpoptProblemWrapper.collect_constraints constraints
    = Err (NameError "FunctionWithApproxJacobian").
Proof.
  induction constraints as [|con rest IH]; intros H.
  - inversion H.
  - cbn. destruct (con_jac con) as [j|] eqn:Hj; [|reflexivity].
    inversion H as [? ? Hhead|? ? Htail]; subst; [congruence|].
    rewrite (IH Htail). reflexivity.
Qed.

Lemma collect_constraints_inv constraints funs jacs argss :
  IpoptProblemWrapper.collect_constraints constraints = Ok (funs, jacs, argss) ->
  funs = map con_fun constraints /\
  argss = map (fun con => default [] (con_args con)) constraints /\
  Forall2 (fun con j => con_jac con = Some j) constraints jacs.
Proof.
  revert funs jacs argss.
  induction constraints as [|con rest IH]; intros funs jacs argss; cbn.
  - intros [= <- <- <-]. repeat split. constructor.
  - destruct (con_jac con) as [j|] eqn:Hj; [|discriminate].
    destruct (IpoptProblemWrapper.collect_constraints rest)
      as [[[fs js] ass]|e]; [|discriminate].
    intros [= <- <- <-].
    destruct (IH fs js ass eq_refl) as (-> & -> & HF).
    repeat split. constructor; assumption.
Qed.

(** C2. The adapter does not synthesize a Jacobian for a constraint that
    lacks one: the constructor, whatever its other (accepted) arguments,
    raises [NameError] for the unbound name [FunctionWithApproxJacobian]
    as soon as one constraint of the list has no ['jac']. *)
Theorem constraint_without_jacobian_raises
    fun_ args kwargs jac constraints eps :
  jac <> JacOther ->
  Exists (fun con => con_jac con = None) (as_sequence constraints) ->
  IpoptProblemWrapper.__init__ fun_ args kwargs jac None None constraints eps
    = Err (NameError "FunctionWithApproxJacobian").
Proof.
  intros Hjac Hex. unfold IpoptProblemWrapper.__init__.
  rewrite (collect_constraints_nojac _ Hex).
  destruct jac; try reflexivity. congruence.
Qed.

Lemma constraint_without_jacobian_raises_witness :
  IpoptProblemWrapper.__init__ example_objective [] None JacNone None None
    (ConSeq [example_con_ineq; example_con_nojac]) eps_default
    = Err (NameError "FunctionWithApproxJacobian").
Proof.
  apply constraint_without_jacobian_raises; [discriminate|].
  cbn. apply Exists_cons_tl, Exists_cons_hd. reflexivity.
Defined.

(** ** Stacked constraint values and Jacobians *)

Lemma mapM_constraint_funs constraints x vs :
  Forall2 (fun con v => con_fun con x (default [] (con_args con)) = Ok v)
    constraints vs ->
  res_mapM (fun '(fun_, args) => fun_ x args)
    (zip (map con_fun constraints)
         (map (fun con => default [] (con_args con)) constraints)) = Ok vs.
Proof.
  induction 1 as [|con v rest vs' Hv _ IH]; cbn; [reflexivity|].
  rewrite Hv, IH. reflexivity.
Qed.

Lemma mapM_constraint_jacs constraints jacs x Js :
  Forall2 (fun con j => con_jac con = Some j) constraints jacs ->
  Forall2 (fun con J => exists j, con_jac con = Some j /\
                          j x (default [] (con_args con)) = Ok J)
    constraints Js ->
  res_mapM (fun '(fun_, args) => fun_ x args)
    (zip jacs (map (fun con => default [] (con_args con)) constraints)) = Ok Js.
Proof.
  intros Hj. revert Js.
  induction Hj as [|con j rest jacs' Hcj _ IH]; intros Js HJ.
  - inversion HJ. reflexivity.
  - inversion HJ as [|? J ? Js' (j' & Hcj' & HJx) Hrest]; subst. cbn.
    assert (j' = j) as -> by congruence.
    rewrite HJx, (IH _ Hrest). reflexivity.
Qed.

Lemma stacked_rows_length vs Js :
  Forall2 (fun v J => length (atleast_2d J) = length (atleast_1d v)) vs Js ->
  length (concat (map atleast_2d Js)) = length (concat (map atleast_1d vs)).
Proof.
  induction 1 as [|v J vs' Js' H _ IH]; cbn; [reflexivity|].
  rewrite !length_app, H, IH. reflexivity.
Qed.

Lemma length_concat_sum {A : Type} (ls : list (list A)) :
  length (concat ls) = list_sum (map (@length A) ls).
Proof.
  induction ls as [|l ls IH]; cbn; [reflexivity|].
  rewrite length_app, IH. reflexivity.
Qed.

(** C8, as amended. An adapter, at any moment of its life, at a point
    [x] where the constraint functions return [vs] and the Jacobians
    return [Js] (rows of one length). With no constraints, the default,
    [constraints(x)] and [jacobian(x)] raise [ValueError]. With a
    non-empty list, [constraints(x)] is the concatenation of [vs] in the
    order of the list and [jacobian(x)] is the rows of [Js] stacked in
    that order, an array of dimension 1 as one row. [constraints(x)] has
    as many entries as the functions return values, [jacobian(x)] as
    many rows as the Jacobians return; the two numbers are equal where
    each Jacobian returns as many rows as its function returns values,
    which the adapter does not check. *)
Theorem constraints_and_jacobian_stack
    fun_ args kwargs jac hess hessp constraints eps self0 self x vs Js :
  IpoptProblemWrapper.__init__ fun_ args kwargs jac hess hessp
    constraints eps = Ok self0 ->
  rtc step self0 self ->
  Forall2 (fun con v => con_fun con x (default [] (con_args con)) = Ok v)
    (as_sequence constraints) vs ->
  Forall2 (fun con J => exists j, con_jac con = Some j /\
                          j x (default [] (con_args con)) = Ok J)
    (as_sequence constraints) Js ->
  same_width (concat (map atleast_2d Js)) = true ->
  match as_sequence constraints with
  | [] =>
      IpoptProblemWrapper.constraints self x
        = Err (ValueError "need at least one array to concatenate") /\
      IpoptProblemWrapper.jacobian self x
        = Err (ValueError "need at least one array to concatenate")
  | _ :: _ =>
      exists values rows,
        IpoptProblemWrapper.constraints self x = Ok (Vec values) /\
        IpoptProblemWrapper.jacobian self x = Ok (Mat rows) /\
        values = concat (map atleast_1d vs) /\
        rows = concat (map atleast_2d Js) /\
        length values = list_sum (map (fun v => length (atleast_1d v)) vs) /\
        length rows = list_sum (map (fun J => length (atleast_2d J)) Js) /\
        (Forall2 (fun v J => length (atleast_2d J) = length (atleast_1d v))
           vs Js ->
         length rows = length values)
  end.
Proof.
  intros Hinit Hlife Hvs HJs Hwidth.
  destruct (init_inv _ _ _ _ _ _ _ _ _ Hinit) as (_ & _ & _ & _ & _ & _ & _ & _ & _ & _ & _ & _ & _ & Hcol).
  destruct (rtc_same_setup _ _ Hlife) as (_ & _ & _ & _ & _ & Hf & Hj & Ha).
  rewrite <- Hf, <- Hj, <- Ha in Hcol.
  destruct (collect_constraints_inv _ _ _ _ Hcol) as (Hfuns & Hargs & Hjacs).
  assert (IpoptProblemWrapper.constraints self x = np_hstack vs) as Hc.
  { unfold IpoptProblemWrapper.constraints.
    rewrite Hfuns, Hargs.
    replace (res_mapM _ _) with (Ok vs)
      by (symmetry; exact (mapM_constraint_funs _ _ _ Hvs)).
    reflexivity. }
  assert (IpoptProblemWrapper.jacobian self x = np_vstack Js) as HJ.
  { unfold IpoptProblemWrapper.jacobian.
    rewrite Hargs.
    replace (res_mapM _ _) with (Ok Js)
      by (symmetry; exact (mapM_constraint_jacs _ _ _ _ Hjacs HJs)).
    reflexivity. }
  rewrite Hc, HJ.
  destruct (as_sequence constraints) as [|con rest].
  - inversion Hvs. inversion HJs. split; reflexivity.
  - inversion Hvs as [|? v ? vs' Hv Hvs']. inversion HJs as [|? J ? Js' HJ0 HJs'].
    subst.
    exists (concat (map atleast_1d (v :: vs'))),
           (concat (map atleast_2d (J :: Js'))).
    split; [reflexivity|].
    split; [unfold np_vstack; rewrite Hwidth; reflexivity|].
    split; [reflexivity|]. split; [reflexivity|].
    split; [rewrite length_concat_sum, map_map; reflexivity|].
    split; [rewrite length_concat_sum, map_map; reflexivity|].
    apply stacked_rows_length.
Qed.

Lemma constraints_and_jacobian_stack_witness :
  let self0 :=
    IpoptProblemWrapper.mk None None None example_objective
      (IpoptProblemWrapper.JFun
         (IpoptProblemWrapper.approx_jac example_objective eps_default))
      [] []
      [con_fun example_con_ineq; con_fun example_con_eq]
      [fun x _ => Ok (Row (atleast_1d x));
       fun x _ => Ok (Mat [atleast_1d x; atleast_1d x])]
      [[]; []] 0 0 0 in
  IpoptProblemWrapper.constraints self0 example_point
    = Ok (Vec [1%float; 1%float; 2%float]) /\
  IpoptProblemWrapper.jacobian self0 example_point
    = Ok (Mat [[1%float; 2%float]; [1%float; 2%float]; [1%float; 2%float]]).
Proof.
  intros self0.
  pose proof (constraints_and_jacobian_stack example_objective [] None
                JacNone None None (ConSeq [example_con_ineq; example_con_eq])
                eps_default self0 self0 example_point
                [Scalar 1%float; example_point]
                [Row [1%float; 2%float];
                 Mat [[1%float; 2%float]; [1%float; 2%float]]]
                eq_refl (rtc_refl _ _)) as H.
  destruct H as (values & rows & Hc & Hj & -> & -> & _).
  - repeat constructor.
  - repeat constructor; eexists; split; reflexivity.
  - reflexivity.
  - split; assumption.
Defined.

(** C8, two counterexamples to the claim as stated. Constructed with no
    constraints, the default, the adapter raises [ValueError] where the
    claim has the concatenation of no outputs. With one constraint of
    two values whose Jacobian is of dimension 1, [constraints(x)] has
    two entries and [jacobian(x)] one row. *)
Lemma stack_size_mismatch :
  let unconstrained :=
    IpoptProblemWrapper.mk None None None example_objective
      (IpoptProblemWrapper.JFun
         (IpoptProblemWrapper.approx_jac example_objective eps_default))
      [] [] [] [] [] 0 0 0 in
  let flat :=
    IpoptProblemWrapper.mk None None None example_objective
      (IpoptProblemWrapper.JFun
         (IpoptProblemWrapper.approx_jac example_objective eps_default))
      [] []
      [con_fun example_con_flat]
      [fun x _ => Ok (Row (atleast_1d x))]
      [[]] 0 0 0 in
  (IpoptProblemWrapper.__init__ example_objective [] None JacNone None None
     (ConSeq []) eps_default = Ok unconstrained /\
   IpoptProblemWrapper.constraints unconstrained example_point
     = Err (ValueError "need at least one array to concatenate") /\
   IpoptProblemWrapper.jacobian unconstrained example_point
     = Err (ValueError "need at least one array to concatenate")) /\
  (IpoptProblemWrapper.__init__ example_objective [] None JacNone None None
     (ConSeq [example_con_flat]) eps_default = Ok flat /\
   IpoptProblemWrapper.constraints flat example_point
     = Ok (Vec [1%float; 2%float]) /\
   IpoptProblemWrapper.jacobian flat example_point
     = Ok (Mat [[1%float; 2%float]]) /\
   length [[1%float; 2%float]] <> length [1%float; 2%float]).
Proof.
  cbv zeta. split.
  - split; [reflexivity|]. split; reflexivity.
  - split; [reflexivity|]. split; [reflexivity|]. split; [reflexivity|].
    cbn. discriminate.
Qed.

(** ** Constraint bounds *)

Lemma scaled_ones m : np_scale INF_default (np_ones m) = repeat INF_default m.
Proof.
  unfold np_scale, np_ones.
  induction m as [|m IH]; cbn; [reflexivity|]. rewrite IH. reflexivity.
Qed.

Lemma get_constraint_bounds_loop_ok constraints x0 cl cu :
  Forall (defined_at x0) constraints ->
  Forall known_type constraints ->
  get_constraint_bounds_loop constraints x0 INF_default cl cu =
    Ok (cl ++ concat (map (fun con => repeat 0%float (arity x0 con)) constraints),
        cu ++ concat (map (fun con => repeat (upper_bound con) (arity x0 con))
                          constraints)).
Proof.
  intros Hdef. revert cl cu.
  induction Hdef as [|con rest Hcon _ IH]; intros cl cu Hty; cbn.
  - rewrite !app_nil_r. reflexivity.
  - inversion Hty as [|? ? Hk Hrest]; subst.
    unfold defined_at in Hcon. unfold arity, upper_bound.
    destruct (con_fun con x0 (default [] (con_args con))) as [v|e];
      [|discriminate].
    destruct Hk as [Hk|Hk]; rewrite Hk; cbn.
    + rewrite (IH _ _ Hrest). unfold np_zeros. rewrite <- !app_assoc.
      reflexivity.
    + rewrite scaled_ones, (IH _ _ Hrest). unfold np_zeros.
      rewrite <- !app_assoc. reflexivity.
Qed.

Lemma length_concat_repeat {A : Type} (a : constraint -> A) (m : constraint -> nat)
    constraints :
  length (concat (map (fun con => repeat (a con) (m con)) constraints))
    = list_sum (map m constraints).
Proof.
  induction constraints as [|con rest IH]; cbn; [reflexivity|].
  rewrite length_app, repeat_length, IH. reflexivity.
Qed.

(** C4. For a list of constraints of the types ['eq'] and ['ineq'] and a
    probe point [x0] at which every constraint function is defined, the
    translator returns [cl] and [cu], both of length [sum(m_i)]; in the
    order of the list, the [m_i] entries of a constraint are [0] in
    [cl], and in [cu] they are [0] for an equality and the sentinel
    [1e19] (a finite number) for an inequality. *)
Theorem constraint_bounds_layout constraints x0 :
  Forall (defined_at x0) (as_sequence constraints) ->
  Forall known_type (as_sequence constraints) ->
  let m := arity x0 in
  let cl := concat (map (fun con => repeat 0%float (m con))
                        (as_sequence constraints)) in
  let cu := concat (map (fun con =>
                           repeat (if String.eqb (con_type con) "eq"
                                   then 0%float else 1e19%float) (m con))
                        (as_sequence constraints)) in
  get_constraint_bounds constraints x0 INF_default = Ok (cl, cu) /\
  length cl = list_sum (map m (as_sequence constraints)) /\
  length cu = list_sum (map m (as_sequence constraints)) /\
  PrimFloat.is_infinity 1e19%float = false /\
  PrimFloat.is_nan 1e19%float = false.
Proof.
  intros Hdef Hty. cbv zeta. unfold get_constraint_bounds.
  rewrite (get_constraint_bounds_loop_ok _ _ [] [] Hdef Hty). cbn.
  split; [reflexivity|].
  split; [apply length_concat_repeat|].
  split; [apply (length_concat_repeat _ (arity x0))|].
  split; reflexivity.
Qed.

Lemma constraint_bounds_layout_witness :
  get_constraint_bounds (ConSeq [example_con_ineq; example_con_eq])
    example_point INF_default
  = Ok ([0%float; 0%float; 0%float], [1e19%float; 0%float; 0%float]).
Proof.
  apply (constraint_bounds_layout (ConSeq [example_con_ineq; example_con_eq])
           example_point).
  - repeat constructor.
  - constructor; [right; reflexivity|].
    constructor; [left; reflexivity|constructor].
Defined.

(** ** The store *)

Lemma world_eq (a b : world) : heap a = heap b -> trace a = trace b -> a = b.
Proof. destruct a, b; cbn; intros -> ->; reflexivity. Qed.

Lemma deref_store l d w : deref l (store l d w) = d.
Proof. unfold deref, store; cbn. rewrite lookup_insert_eq. reflexivity. Qed.

Lemma store_store l d1 d2 w : store l d2 (store l d1 w) = store l d2 w.
Proof. apply world_eq; cbn; [apply insert_insert_eq|reflexivity]. Qed.

Lemma store_deref l w : is_Some (heap w !! l) -> store l (deref l w) w = w.
Proof.
  intros [d Hd]. unfold deref, store. rewrite Hd.
  apply world_eq; cbn; [|reflexivity]. apply insert_id. exact Hd.
Qed.

Lemma bind_ok {A B : Type} (c : M A) (k : A -> M B) w a w' :
  c w = (Ok a, w') -> (c ≫= k) w = k a w'.
Proof. unfold mbind, M_bind, bind. intros ->. reflexivity. Qed.

Lemma bind_err {A B : Type} (c : M A) (k : A -> M B) w e w' :
  c w = (Err e, w') -> (c ≫= k) w = (Err e, w').
Proof. unfold mbind, M_bind, bind. intros ->. reflexivity. Qed.

Lemma replace_option_run l oldname newname w :
  is_Some (heap w !! l) ->
  replace_option l oldname newname w
    = (Ok tt, store l (replace_option_entries oldname newname (deref l w)) w).
Proof.
  intros Hl. unfold replace_option, replace_option_entries.
  unfold mbind, M_bind, bind, dict_contains, dict_pop, dict_setitem, ret, dict_in.
  destruct (dict_get oldname (deref l w)) as [v|] eqn:Hold; cbn.
  - destruct (dict_get newname (deref l w)) as [v'|] eqn:Hnew; cbn.
    + rewrite (store_deref l w Hl). reflexivity.
    + rewrite Hold. rewrite deref_store, store_store. reflexivity.
  - rewrite (store_deref l w Hl). reflexivity.
Qed.

Lemma set_default_run l key value w :
  is_Some (heap w !! l) ->
  set_default l key value w
    = (Ok tt, store l (set_default_entries key value (deref l w)) w).
Proof.
  intros Hl. unfold set_default, set_default_entries.
  unfold mbind, M_bind, bind, dict_contains, dict_setitem, ret.
  destruct (dict_in key (deref l w)); cbn; [|reflexivity].
  rewrite (store_deref l w Hl). reflexivity.
Qed.

Lemma store_is_Some l d w : is_Some (heap (store l d w) !! l).
Proof. cbn. rewrite lookup_insert_eq. eauto. Qed.

(** ** The entry operation, stage by stage *)

Lemma minimize_ipopt_init_error cy fun_ x0 args kwargs jac hess hessp bounds
    constraints tol options w e :
  IpoptProblemWrapper.__init__ fun_ args kwargs jac hess hessp constraints
    eps_default = Err e ->
  minimize_ipopt cy fun_ x0 args kwargs jac hess hessp bounds constraints tol
    options w = (Err e, w).
Proof.
  intros H. unfold minimize_ipopt. apply bind_err. unfold lift. rewrite H.
  reflexivity.
Qed.

Lemma minimize_ipopt_bounds_error cy fun_ x0 args kwargs jac hess hessp bounds
    constraints tol options w adapter e :
  IpoptProblemWrapper.__init__ fun_ args kwargs jac hess hessp constraints
    eps_default = Ok adapter ->
  get_constraint_bounds constraints x0 INF_default = Err e ->
  minimize_ipopt cy fun_ x0 args kwargs jac hess hessp bounds constraints tol
    options w = (Err e, w).
Proof.
  intros H1 H2. unfold minimize_ipopt.
  erewrite bind_ok; [|unfold lift; rewrite H1; reflexivity].
  destruct (get_bounds bounds) as [lb ub].
  apply bind_err. unfold lift. rewrite H2. reflexivity.
Qed.

Lemma minimize_ipopt_setup cy fun_ x0 args kwargs jac hess hessp bounds
    constraints tol options w adapter cl cu :
  IpoptProblemWrapper.__init__ fun_ args kwargs jac hess hessp constraints
    eps_default = Ok adapter ->
  get_constraint_bounds constraints x0 INF_default = Ok (cl, cu) ->
  (forall l, options = Some l -> is_Some (heap w !! l)) ->
  let l := options_object options w in
  let nlp := the_nlp x0 bounds cl cu in
  let w1 := {| heap := heap (with_options_object options w);
               trace := trace w ++ [EvProblem nlp] |} in
  let items := translated_entries tol (deref l w1) in
  minimize_ipopt cy fun_ x0 args kwargs jac hess hessp bounds constraints tol
    options w =
  match problem cy nlp with
  | Err e => (Err e, w1)
  | Ok _ => after_setup cy nlp x0 items adapter (store l items w1)
  end.
Proof.
  intros H1 H2 Hl. cbv zeta. unfold minimize_ipopt.
  erewrite bind_ok; [|unfold lift; rewrite H1; reflexivity].
  unfold the_nlp. destruct (get_bounds bounds) as [lb ub]. cbn [fst snd].
  erewrite bind_ok; [|unfold lift; rewrite H2; reflexivity].
  cbv beta iota.
  erewrite bind_ok with (a := options_object options w)
                        (w' := with_options_object options w);
    [|destruct options; reflexivity].
  destruct (init_inv _ _ _ _ _ _ _ _ _ H1) as (-> & -> & _).
  set (nlp := {| nlp_n := length (atleast_1d x0); nlp_m := length cl;
                 nlp_lb := lb; nlp_ub := ub; nlp_cl := cl; nlp_cu := cu |}).
  set (l := options_object options w).
  set (w0 := with_options_object options w).
  set (w1 := {| heap := heap w0; trace := trace w ++ [EvProblem nlp] |}).
  assert (is_Some (heap w1 !! l)) as Hl1.
  { subst w1 w0 l. cbn. destruct options as [l|]; cbn.
    - apply Hl. reflexivity.
    - rewrite lookup_insert_eq. eauto. }
  assert (cyipopt_problem cy nlp w0 =
          (match problem cy nlp with Ok _ => Ok tt | Err e => Err e end, w1))
    as Hp.
  { unfold cyipopt_problem, mbind, M_bind, bind, emit, lift. cbn.
    subst w1 w0. destruct options; cbn; destruct (problem cy nlp) as [[]|];
      reflexivity. }
  destruct (problem cy nlp) as [[]|e];
    [|apply bind_err; exact Hp].
  erewrite bind_ok; [|exact Hp].
  erewrite bind_ok; [|apply replace_option_run; exact Hl1].
  erewrite bind_ok; [|apply replace_option_run; apply store_is_Some].
  rewrite deref_store, store_store.
  erewrite bind_ok; [|apply set_default_run; apply store_is_Some].
  rewrite deref_store, store_store.
  erewrite bind_ok; [|apply set_default_run; apply store_is_Some].
  rewrite deref_store, store_store.
  erewrite bind_ok; [|apply set_default_run; apply store_is_Some].
  rewrite deref_store, store_store.
  erewrite bind_ok; [|reflexivity].
  rewrite deref_store.
  erewrite bind_ok with (a := tt)
    (w' := store l (translated_entries tol (deref l w1)) w1).
  2:{ unfold translated_entries.
      set (d := set_default_entries "mu_strategy" _ _).
      unfold set_default_entries.
      destruct (dict_in "hessian_approximation" d); cbn.
      - reflexivity.
      - unfold dict_setitem. rewrite deref_store, store_store. reflexivity. }
  erewrite bind_ok; [|reflexivity].
  rewrite deref_store.
  unfold after_setup, mbind, M_bind, bind.
  destruct (add_options cy nlp _ _) as [[[]|e] w3]; [|reflexivity].
  unfold nlp_solve, mbind, M_bind, bind, emit, lift, assemble, unwrap, ret.
  destruct (solve cy nlp _ adapter (atleast_1d x0)) as [[[x info]|e] adapter'];
    cbn; [|reflexivity].
  destruct (shape_is_unit x0); [destruct x|]; reflexivity.
Qed.

(** ** Dictionaries *)

Lemma dict_get_set k k' v d :
  dict_get k' (dict_set k v d)
    = if String.eqb k' k then Some v else dict_get k' d.
Proof.
  induction d as [|[k0 v0] d IH]; cbn.
  - destruct (String.eqb k' k); reflexivity.
  - destruct (String.eqb_spec k k0) as [->|Hk]; cbn.
    + destruct (String.eqb k' k0); reflexivity.
    + rewrite IH.
      destruct (String.eqb_spec k' k0) as [->|Hk'];
        destruct (String.eqb_spec k0 k) as [->|]; try reflexivity; congruence.
Qed.

Lemma dict_get_del k k' d :
  dict_get k' (dict_del k d)
    = if String.eqb k' k then None else dict_get k' d.
Proof.
  induction d as [|[k0 v0] d IH]; cbn.
  - destruct (String.eqb k' k); reflexivity.
  - destruct (String.eqb_spec k k0) as [->|Hk]; cbn.
    + rewrite IH. destruct (String.eqb k' k0); reflexivity.
    + rewrite IH.
      destruct (String.eqb_spec k' k0) as [->|Hk'];
        destruct (String.eqb_spec k0 k) as [->|]; try reflexivity; congruence.
Qed.

Lemma dict_in_get k d : dict_in k d = true <-> is_Some (dict_get k d).
Proof.
  unfold dict_in. destruct (dict_get k d); split; intros H;
    try reflexivity; try discriminate; eauto.
  destruct H; discriminate.
Qed.

Lemma dict_in_entry k v (d : pydict) : In (k, v) d -> dict_in k d = true.
Proof.
  unfold dict_in. induction d as [|[k0 v0] d IH]; cbn; [intros []|].
  intros [[= -> ->]|H].
  - rewrite String.eqb_refl. reflexivity.
  - destruct (String.eqb k k0); [reflexivity|]. apply IH, H.
Qed.

Lemma dict_get_replace_option k oldname newname d :
  dict_get k (replace_option_entries oldname newname d) =
    match dict_get oldname d with
    | Some v =>
        if dict_in newname d then dict_get k d
        else if String.eqb k newname then Some v
        else if String.eqb k oldname then None
        else dict_get k d
    | None => dict_get k d
    end.
Proof.
  unfold replace_option_entries.
  destruct (dict_get oldname d) as [v|]; [|reflexivity].
  destruct (dict_in newname d); [reflexivity|].
  rewrite dict_get_set, dict_get_del. reflexivity.
Qed.

Lemma dict_get_set_default k key value d :
  dict_get k (set_default_entries key value d) =
    if String.eqb k key then
      match dict_get key d with
      | Some v => Some v
      | None => Some value
      end
    else dict_get k d.
Proof.
  unfold set_default_entries, dict_in.
  destruct (dict_get key d) as [v|] eqn:Hkey.
  - destruct (String.eqb_spec k key) as [->|]; [exact Hkey|reflexivity].
  - rewrite dict_get_set.
    destruct (String.eqb_spec k key) as [->|]; reflexivity.
Qed.

(** The entries of the translated dictionary, key by key. *)
Lemma translated_get k tol d :
  dict_get k (translated_entries tol d) =
    let d1 := replace_option_entries "disp" "print_level" d in
    let d2 := replace_option_entries "maxiter" "max_iter" d1 in
    let or_default (value : pyval) :=
      match dict_get k d2 with Some v => Some v | None => Some value end in
    if String.eqb k "hessian_approximation" then
      or_default (VStr "limited-memory")
    else if String.eqb k "mu_strategy" then or_default (VStr "adaptive")
    else if String.eqb k "tol" then or_default (VFloat (tol_or_default tol))
    else if String.eqb k "print_level" then or_default (VInt 0)
    else dict_get k d2.
Proof.
  unfold translated_entries. cbv zeta.
  rewrite !dict_get_set_default.
  destruct (String.eqb_spec k "hessian_approximation") as [->|]; [reflexivity|].
  destruct (String.eqb_spec k "mu_strategy") as [->|]; [reflexivity|].
  destruct (String.eqb_spec k "tol") as [->|]; [reflexivity|].
  destruct (String.eqb_spec k "print_level") as [->|]; reflexivity.
Qed.

(** ** What the solver is given *)

(** [add_options] leaves the store alone, and hands the solver the
    entries in order, up to the first one it rejects; all of them when
    it returns. *)
Lemma add_options_run cy nlp items w :
  exists passed,
    heap (snd (add_options cy nlp items w)) = heap w /\
    trace (snd (add_options cy nlp items w))
      = trace w ++ map option_event passed /\
    (forall entry, In entry passed -> In entry items) /\
    (is_ok (fst (add_options cy nlp items w)) = true -> passed = items).
Proof.
  revert w. induction items as [|[k v] items IH]; intros w.
  - exists []. cbn. rewrite app_nil_r. repeat split; tauto.
  - cbn [add_options]. unfold mbind, M_bind, bind, emit.
    destruct (addOption cy nlp k v) as [[]|e].
    + destruct (IH {| heap := heap w; trace := trace w ++ [EvAddOption k v] |})
        as (passed & Hh & Ht & Hin & Hall).
      exists ((k, v) :: passed). rewrite Hh, Ht. cbn.
      rewrite <- app_assoc. repeat split.
      * intros entry [<-|H]; [left; reflexivity|right; apply Hin, H].
      * intros Hok. rewrite (Hall Hok). reflexivity.
    + exists [(k, v)]. destruct e; cbn; repeat split;
        try discriminate; intros entry [<-|[]]; left; reflexivity.
Qed.

Lemma replace_option_other k oldname newname d :
  String.eqb k oldname = false -> String.eqb k newname = false ->
  dict_get k (replace_option_entries oldname newname d) = dict_get k d.
Proof.
  intros Ho Hn. rewrite dict_get_replace_option, Ho, Hn.
  destruct (dict_get oldname d); [|reflexivity].
  destruct (dict_in newname d); reflexivity.
Qed.

Lemma translated_disp tol d :
  dict_get "disp" (translated_entries tol d)
    = if dict_in "print_level" d then dict_get "disp" d else None.
Proof.
  rewrite translated_get. cbn.
  rewrite replace_option_other by reflexivity.
  rewrite dict_get_replace_option. cbn.
  destruct (dict_get "disp" d) eqn:E; destruct (dict_in "print_level" d);
    congruence.
Qed.

Lemma translated_print_level tol d :
  dict_get "print_level" (translated_entries tol d) =
    match dict_get "print_level" d with
    | Some v => Some v
    | None =>
        match dict_get "disp" d with
        | Some v => Some v
        | None => Some (VInt 0)
        end
    end.
Proof.
  rewrite translated_get. cbn.
  rewrite replace_option_other by reflexivity.
  rewrite dict_get_replace_option. cbn. unfold dict_in.
  destruct (dict_get "disp" d); destruct (dict_get "print_level" d);
    reflexivity.
Qed.

Lemma translated_maxiter tol d :
  dict_get "maxiter" (translated_entries tol d)
    = if dict_in "max_iter" d then dict_get "maxiter" d else None.
Proof.
  rewrite translated_get. cbn.
  rewrite dict_get_replace_option. cbn. unfold dict_in.
  rewrite !replace_option_other by reflexivity.
  destruct (dict_get "maxiter" d); destruct (dict_get "max_iter" d);
    reflexivity.
Qed.

Lemma translated_max_iter tol d :
  dict_get "max_iter" (translated_entries tol d) =
    match dict_get "max_iter" d with
    | Some v => Some v
    | None => dict_get "maxiter" d
    end.
Proof.
  rewrite translated_get. cbn.
  rewrite dict_get_replace_option. cbn. unfold dict_in.
  rewrite !replace_option_other by reflexivity.
  destruct (dict_get "maxiter" d); destruct (dict_get "max_iter" d);
    reflexivity.
Qed.

Lemma translated_default tol d key value :
  default_of tol key = Some value ->
  dict_get key (translated_entries tol d) =
    match dict_get key d with
    | Some v => Some v
    | None => Some value
    end.
Proof.
  unfold default_of. intros H. rewrite translated_get. cbv zeta.
  destruct (String.eqb_spec key "tol") as [->|];
    [|destruct (String.eqb_spec key "mu_strategy") as [->|];
      [|destruct (String.eqb_spec key "hessian_approximation") as [->|];
        [|discriminate]]];
    injection H as <-; cbn; rewrite !replace_option_other by reflexivity;
    reflexivity.
Qed.

Lemma after_setup_run cy nlp x0 items adapter w :
  exists passed tail,
    heap (snd (after_setup cy nlp x0 items adapter w)) = heap w /\
    trace (snd (after_setup cy nlp x0 items adapter w))
      = trace w ++ map option_event passed ++ tail /\
    (forall entry, In entry passed -> In entry items) /\
    (forall ev, In ev tail -> ev = EvSolve (atleast_1d x0)) /\
    (is_ok (fst (after_setup cy nlp x0 items adapter w)) = true ->
     passed = items /\ tail = [EvSolve (atleast_1d x0)]).
Proof.
  destruct (add_options_run cy nlp items w) as (passed & Hh & Ht & Hin & Hall).
  unfold after_setup.
  destruct (add_options cy nlp items w) as [[[]|e] w3]; cbn in *.
  - exists passed, [EvSolve (atleast_1d x0)].
    destruct (solve cy nlp items adapter (atleast_1d x0))
      as [[[x info]|e] adapter']; cbn; rewrite Ht, <- app_assoc;
      repeat split; try assumption; try (intros ev [<-|[]]; reflexivity);
      try (apply Hall; reflexivity); try discriminate.
  - exists passed, []. cbn. rewrite app_nil_r.
    repeat split; try assumption; try discriminate. intros ev [].
Qed.

(** ** Option aliases *)

(** C3, as the code has it. When the option translation is reached (the
    adapter, the constraint bounds and the solver object were built),
    with [d] the entries of the caller's dictionary and [d'] its entries
    afterwards: an alias whose target is absent from [d] is renamed (the
    target gets its value, and the alias is not in [d']); where the
    target is already in [d], the target keeps its value and the alias
    stays in the dictionary as it was. The solver is given entries of
    [d'] only, so an alias reaches it only where its target was already
    in [d]. *)
Theorem option_aliases cy fun_ x0 args kwargs jac hess hessp bounds
    constraints tol l w d adapter cl cu :
  heap w !! l = Some d ->
  IpoptProblemWrapper.__init__ fun_ args kwargs jac hess hessp constraints
    eps_default = Ok adapter ->
  get_constraint_bounds constraints x0 INF_default = Ok (cl, cu) ->
  problem cy (the_nlp x0 bounds cl cu) = Ok tt ->
  let w' := snd (minimize_ipopt cy fun_ x0 args kwargs jac hess hessp bounds
                   constraints tol (Some l) w) in
  let d' := deref l w' in
  (dict_in "print_level" d = false ->
   dict_in "disp" d' = false /\
   forall v, dict_get "disp" d = Some v -> dict_get "print_level" d' = Some v) /\
  (dict_in "max_iter" d = false ->
   dict_in "maxiter" d' = false /\
   forall v, dict_get "maxiter" d = Some v -> dict_get "max_iter" d' = Some v) /\
  (dict_in "print_level" d = true ->
   dict_get "print_level" d' = dict_get "print_level" d /\
   dict_get "disp" d' = dict_get "disp" d) /\
  (dict_in "max_iter" d = true ->
   dict_get "max_iter" d' = dict_get "max_iter" d /\
   dict_get "maxiter" d' = dict_get "maxiter" d) /\
  exists given,
    trace w' = trace w ++ EvProblem (the_nlp x0 bounds cl cu) :: given /\
    forall k v, In (EvAddOption k v) given ->
      In (k, v) d' /\
      (k = "disp" -> dict_in "print_level" d = true) /\
      (k = "maxiter" -> dict_in "max_iter" d = true).
Proof.
  intros Hd Hinit Hcb Hp. cbv zeta.
  rewrite (minimize_ipopt_setup _ _ _ _ _ _ _ _ _ _ _ _ _ _ _ _ Hinit Hcb)
    by (intros ? [= <-]; eauto).
  cbv zeta. rewrite Hp. cbn [options_object with_options_object].
  set (nlp := the_nlp x0 bounds cl cu).
  set (w1 := {| heap := heap w; trace := trace w ++ [EvProblem nlp] |}).
  assert (deref l w1 = d) as Hd1 by (unfold deref, w1; cbn; rewrite Hd; reflexivity).
  rewrite Hd1.
  set (d' := translated_entries tol d).
  destruct (after_setup_run cy nlp x0 d' adapter (store l d' w1))
    as (passed & tail & Hh & Ht & Hin & Htail & _).
  assert (deref l (snd (after_setup cy nlp x0 d' adapter (store l d' w1))) = d')
    as Hd'.
  { unfold deref. rewrite Hh. cbn. rewrite lookup_insert_eq. reflexivity. }
  rewrite Hd'.
  assert (dict_in "print_level" d = false -> dict_in "disp" d' = false) as Hdisp.
  { intros H. unfold dict_in at 1. unfold d'. rewrite translated_disp, H.
    reflexivity. }
  assert (dict_in "max_iter" d = false -> dict_in "maxiter" d' = false) as Hmax.
  { intros H. unfold dict_in at 1. unfold d'. rewrite translated_maxiter, H.
    reflexivity. }
  split; [|split; [|split; [|split]]].
  - intros H. split; [apply Hdisp, H|].
    intros v Hv. unfold d'. rewrite translated_print_level, Hv.
    unfold dict_in in H. destruct (dict_get "print_level" d);
      [discriminate|reflexivity].
  - intros H. split; [apply Hmax, H|].
    intros v Hv. unfold d'. rewrite translated_max_iter, Hv.
    unfold dict_in in H. destruct (dict_get "max_iter" d);
      [discriminate|reflexivity].
  - intros H. unfold d'. rewrite translated_print_level, translated_disp, H.
    unfold dict_in in H. destruct (dict_get "print_level" d);
      [split; reflexivity|discriminate].
  - intros H. unfold d'. rewrite translated_max_iter, translated_maxiter, H.
    unfold dict_in in H. destruct (dict_get "max_iter" d);
      [split; reflexivity|discriminate].
  - exists (map option_event passed ++ tail). split.
    + rewrite Ht. cbn. rewrite <- app_assoc. reflexivity.
    + intros k v Hev. apply in_app_or in Hev as [Hev|Hev].
      * apply in_map_iff in Hev as ([k' v'] & [= -> ->] & Hentry).
        pose proof (dict_in_entry _ _ _ (Hin _ Hentry)) as Hk.
        split; [apply Hin, Hentry|]. split; intros ->.
        -- destruct (dict_in "print_level" d); [reflexivity|].
           rewrite Hdisp in Hk by reflexivity. discriminate.
        -- destruct (dict_in "max_iter" d); [reflexivity|].
           rewrite Hmax in Hk by reflexivity. discriminate.
      * apply Htail in Hev. discriminate.
Qed.

Lemma option_aliases_witness :
  let w' := snd (minimize_ipopt example_solver example_combined example_point
                   [] None JacTrue None None None (ConSeq []) None
                   (Some 1%positive) example_world_aliases) in
  let d' := deref 1%positive w' in
  (dict_in "disp" d' = false /\ dict_get "print_level" d' = Some (VInt 5)) /\
  (dict_in "maxiter" d' = false /\ dict_get "max_iter" d' = Some (VInt 100)).
Proof.
  pose proof (option_aliases example_solver example_combined example_point
                [] None JacTrue None None None (ConSeq []) None 1%positive
                example_world_aliases
                [("disp", VInt 5); ("maxiter", VInt 100)]
                (IpoptProblemWrapper.mk (Some example_combined) None None
                   example_combined IpoptProblemWrapper.JTrue [] [] [] [] []
                   0 0 0)
                [] [] eq_refl eq_refl eq_refl eq_refl) as (H1 & H2 & _).
  destruct (H1 eq_refl) as [Ha Hb]. destruct (H2 eq_refl) as [Hc Hd].
  split; split; [exact Ha|exact (Hb _ eq_refl)|exact Hc|exact (Hd _ eq_refl)].
Defined.

(** C3, a counterexample to the claim as stated: with
    [{'disp': 5, 'print_level': 3}] the alias ['disp'] is not dropped;
    it is still in the dictionary after the translation and it is given
    to the solver. *)
Lemma alias_reaches_solver :
  let w' := snd (minimize_ipopt example_solver example_combined example_point
                   [] None JacTrue None None None (ConSeq []) None
                   (Some 1%positive) example_world) in
  dict_in "print_level" (deref 1%positive example_world) = true /\
  dict_get "disp" (deref 1%positive w') = Some (VInt 5) /\
  In (EvAddOption "disp" (VInt 5)) (trace w').
Proof.
  vm_compute. split; [reflexivity|]. split; [reflexivity|].
  right. left. reflexivity.
Qed.

(** ** Unsupported second derivatives *)

(** C6. With a [hess] or a [hessp] that is not [None], whatever the
    other arguments, the constructor of the adapter raises
    [NotImplementedError], and so does the entry operation, before it
    has written into the store or called the solver. *)
Theorem hessian_unsupported cy fun_ x0 args kwargs jac hess hessp bounds
    constraints tol options eps w :
  hess <> None \/ hessp <> None ->
  IpoptProblemWrapper.__init__ fun_ args kwargs jac hess hessp constraints eps
    = Err (NotImplementedError "Using hessian matrixes is not yet implemented!") /\
  minimize_ipopt cy fun_ x0 args kwargs jac hess hessp bounds constraints tol
    options w
    = (Err (NotImplementedError "Using hessian matrixes is not yet implemented!"), w).
Proof.
  intros H.
  assert (forall eps,
    IpoptProblemWrapper.__init__ fun_ args kwargs jac hess hessp constraints eps
    = Err (NotImplementedError "Using hessian matrixes is not yet implemented!"))
    as Hinit.
  { intros eps'. unfold IpoptProblemWrapper.__init__.
    destruct hess, hessp; try reflexivity. destruct H; congruence. }
  split; [apply Hinit|].
  apply minimize_ipopt_init_error, Hinit.
Qed.

Lemma hessian_unsupported_witness :
  minimize_ipopt example_solver example_objective example_point [] None
    JacNone None (Some (PArr example_point)) None (ConSeq []) None None
    example_world
  = (Err (NotImplementedError "Using hessian matrixes is not yet implemented!"),
     example_world).
Proof.
  apply (hessian_unsupported example_solver example_objective example_point
           [] None JacNone None (Some (PArr example_point)) None (ConSeq [])
           None None eps_default example_world).
  right. discriminate.
Defined.

(** ** Constraints of an unknown type *)

Lemma is_known_false con : is_known con = false <-> unknown_type con.
Proof.
  unfold is_known, unknown_type.
  destruct (String.eqb_spec (con_type con) "eq");
    destruct (String.eqb_spec (con_type con) "ineq"); cbn; split;
    intros H; try discriminate; try tauto; destruct H; congruence.
Qed.

Lemma exists_first_unknown constraints :
  Exists unknown_type constraints ->
  exists con, first_unknown constraints = Some con /\
              In con constraints /\ unknown_type con.
Proof.
  unfold first_unknown. induction 1 as [con rest H|con rest _ IH]; cbn.
  - apply is_known_false in H. rewrite H. cbn.
    exists con. repeat split; [left; reflexivity|apply is_known_false, H..].
  - destruct (is_known con) eqn:E; cbn.
    + destruct IH as (c & Hf & Hin & Hu). exists c.
      repeat split; [exact Hf|right; exact Hin|apply Hu..].
    + exists con. repeat split; [left; reflexivity|apply is_known_false, E..].
Qed.

Lemma get_constraint_bounds_loop_first_unknown constraints x0 INF cl cu con :
  Forall (defined_at x0) constraints ->
  first_unknown constraints = Some con ->
  get_constraint_bounds_loop constraints x0 INF cl cu
    = Err (ValueError (con_type con)).
Proof.
  intros Hdef. revert cl cu. unfold first_unknown.
  induction Hdef as [|c rest Hc _ IH]; intros cl cu; cbn; [discriminate|].
  unfold defined_at in Hc. unfold is_known.
  destruct (con_fun c x0 (default [] (con_args c))) as [v|e]; [|discriminate].
  destruct (String.eqb (con_type c) "eq"); cbn; [apply IH|].
  destruct (String.eqb (con_type c) "ineq"); cbn; [apply IH|].
  intros [= <-]. reflexivity.
Qed.

(** C7. Where every constraint function is defined at the probe point
    and some constraint has a type that is neither ['eq'] nor ['ineq'],
    the translation of the constraint bounds raises [ValueError] with
    the type of the first such constraint as its argument; the entry
    operation then fails without having written into the store or
    called the solver, and with that [ValueError] whenever the adapter
    could be constructed. *)
Theorem unknown_constraint_type constraints x0 :
  Forall (defined_at x0) (as_sequence constraints) ->
  Exists unknown_type (as_sequence constraints) ->
  exists con,
    first_unknown (as_sequence constraints) = Some con /\
    In con (as_sequence constraints) /\ unknown_type con /\
    (forall INF, get_constraint_bounds constraints x0 INF
                 = Err (ValueError (con_type con))) /\
    forall cy fun_ args kwargs jac hess hessp bounds tol options w,
    exists e,
      minimize_ipopt cy fun_ x0 args kwargs jac hess hessp bounds constraints
        tol options w = (Err e, w) /\
      (is_ok (IpoptProblemWrapper.__init__ fun_ args kwargs jac hess hessp
                constraints eps_default) = true ->
       e = ValueError (con_type con)).
Proof.
  intros Hdef Hex.
  destruct (exists_first_unknown _ Hex) as (con & Hfirst & Hin & Hu).
  exists con.
  assert (forall INF, get_constraint_bounds constraints x0 INF
                      = Err (ValueError (con_type con))) as Hcb.
  { intros INF. unfold get_constraint_bounds.
    apply get_constraint_bounds_loop_first_unknown; assumption. }
  repeat split; try assumption; try apply Hu.
  intros cy fun_ args kwargs jac hess hessp bounds tol options w.
  destruct (IpoptProblemWrapper.__init__ fun_ args kwargs jac hess hessp
              constraints eps_default) as [adapter|e] eqn:Hinit.
  - exists (ValueError (con_type con)). split; [|reflexivity].
    eapply minimize_ipopt_bounds_error; [exact Hinit|apply Hcb].
  - exists e. split; [|discriminate].
    apply minimize_ipopt_init_error, Hinit.
Qed.

Lemma unknown_constraint_type_witness :
  get_constraint_bounds (ConSeq [example_con_eq; example_con_le])
    example_point INF_default = Err (ValueError "le").
Proof.
  destruct (unknown_constraint_type (ConSeq [example_con_eq; example_con_le])
              example_point) as (con & Hfirst & _ & _ & Hcb & _).
  - repeat constructor.
  - apply Exists_cons_tl, Exists_cons_hd. split; discriminate.
  - injection Hfirst as <-. apply Hcb.
Defined.

(** ** A call that returns *)

Lemma minimize_ipopt_ok_inv cy fun_ x0 args kwargs jac hess hessp bounds
    constraints tol options w r w' :
  (forall l, options = Some l -> is_Some (heap w !! l)) ->
  minimize_ipopt cy fun_ x0 args kwargs jac hess hessp bounds constraints tol
    options w = (Ok r, w') ->
  exists adapter cl cu,
    IpoptProblemWrapper.__init__ fun_ args kwargs jac hess hessp constraints
      eps_default = Ok adapter /\
    get_constraint_bounds constraints x0 INF_default = Ok (cl, cu) /\
    let l := options_object options w in
    let nlp := the_nlp x0 bounds cl cu in
    let w1 := {| heap := heap (with_options_object options w);
                 trace := trace w ++ [EvProblem nlp] |} in
    let items := translated_entries tol (deref l w1) in
    after_setup cy nlp x0 items adapter (store l items w1) = (Ok r, w').
Proof.
  intros Hl Hrun.
  destruct (IpoptProblemWrapper.__init__ fun_ args kwargs jac hess hessp
              constraints eps_default) as [adapter|e] eqn:Hinit.
  2:{ rewrite (minimize_ipopt_init_error _ _ _ _ _ _ _ _ _ _ _ _ _ _ Hinit)
        in Hrun. discriminate. }
  destruct (get_constraint_bounds constraints x0 INF_default)
    as [[cl cu]|e] eqn:Hcb.
  2:{ rewrite (minimize_ipopt_bounds_error _ _ _ _ _ _ _ _ _ _ _ _ _ _ _
                 Hinit Hcb) in Hrun. discriminate. }
  exists adapter, cl, cu. split; [reflexivity|]. split; [reflexivity|].
  rewrite (minimize_ipopt_setup _ _ _ _ _ _ _ _ _ _ _ _ _ _ _ _ Hinit Hcb Hl)
    in Hrun.
  cbv zeta in *. destruct (problem cy _); [exact Hrun|discriminate].
Qed.

Lemma add_options_accepted cy nlp items w :
  (forall k v, In (k, v) items -> addOption cy nlp k v = Ok tt) ->
  add_options cy nlp items w
    = (Ok tt, {| heap := heap w;
                 trace := trace w ++ map option_event items |}).
Proof.
  revert w. induction items as [|[k v] items IH]; intros w Hacc.
  - cbn. rewrite app_nil_r. destruct w; reflexivity.
  - cbn [add_options]. unfold mbind, M_bind, bind, emit.
    rewrite (Hacc k v (or_introl eq_refl)).
    rewrite IH by (intros k' v' H; apply Hacc; right; exact H).
    cbn. rewrite <- app_assoc. reflexivity.
Qed.

(** ** The result record *)

(** C5. With a solver that returns a solution of the length [n] it was
    constructed with. Whenever the entry operation returns a record: its
    [success] is [status == 0], [status] being the status the solver
    reported, whatever it is; for an initial point that is a vector of
    length [n] the solution in the record is the solver's vector, of
    length [n]; and it is a bare scalar, the one component of the
    solver's vector, exactly when the initial point was a scalar. And
    the record is returned whenever the set-up succeeds, the solver
    accepts the options and [solve] returns, whatever the status. *)
Theorem result_record cy fun_ x0 args kwargs jac hess hessp bounds
    constraints tol options w :
  (forall nlp items adapter x0' x info adapter',
     solve cy nlp items adapter x0' = (Ok (x, info), adapter') ->
     length x = nlp_n nlp) ->
  (forall l, options = Some l -> is_Some (heap w !! l)) ->
  let run := minimize_ipopt cy fun_ x0 args kwargs jac hess hessp bounds
               constraints tol options w in
  (forall r w', run = (Ok r, w') ->
     OptimizeResult.success r = Z.eqb (OptimizeResult.status r) 0 /\
     exists nlp items adapter x info adapter',
       solve cy nlp items adapter (atleast_1d x0) = (Ok (x, info), adapter') /\
       OptimizeResult.status r = info_status info /\
       OptimizeResult.message r = info_status_msg info /\
       OptimizeResult.fun_ r = info_obj_val info /\
       OptimizeResult.info r = info /\
       OptimizeResult.nfev r = nfev adapter' /\
       OptimizeResult.njev r = njev adapter' /\
       OptimizeResult.nit r = nit adapter' /\
       match x0 with
       | Scalar _ => exists f, x = [f] /\ OptimizeResult.x r = Scalar f
       | Vec v => OptimizeResult.x r = Vec x /\ length x = length v
       end) /\
  (forall adapter cl cu x info adapter',
     IpoptProblemWrapper.__init__ fun_ args kwargs jac hess hessp constraints
       eps_default = Ok adapter ->
     get_constraint_bounds constraints x0 INF_default = Ok (cl, cu) ->
     let nlp := the_nlp x0 bounds cl cu in
     let items :=
       translated_entries tol
         (match options with Some l => deref l w | None => [] end) in
     problem cy nlp = Ok tt ->
     (forall k v, In (k, v) items -> addOption cy nlp k v = Ok tt) ->
     solve cy nlp items adapter (atleast_1d x0) = (Ok (x, info), adapter') ->
     exists r w',
       run = (Ok r, w') /\
       OptimizeResult.status r = info_status info /\
       OptimizeResult.success r = Z.eqb (info_status info) 0).
Proof.
  intros Hsolver Hl run. split.
  - intros r w' Hrun.
    destruct (minimize_ipopt_ok_inv _ _ _ _ _ _ _ _ _ _ _ _ _ _ _ Hl Hrun)
      as (adapter & cl & cu & _ & _ & Hafter).
    cbv zeta in Hafter. unfold after_setup in Hafter.
    destruct (add_options cy _ _ _) as [[[]|e] w3]; [|discriminate].
    destruct (solve cy _ _ adapter (atleast_1d x0))
      as [[[x info]|e] adapter'] eqn:Hsolve; [|discriminate].
    pose proof (Hsolver _ _ _ _ _ _ _ Hsolve) as Hlen. cbn in Hlen.
    unfold assemble, unwrap in Hafter.
    destruct x0 as [f0|v]; cbn in Hafter, Hlen.
    + destruct x as [|f [|? ?]]; try discriminate.
      injection Hafter as <- <-. cbn. split; [reflexivity|].
      eexists _, _, _, _, _, _. split; [exact Hsolve|].
      repeat split. exists f. split; reflexivity.
    + injection Hafter as <- <-. cbn. split; [reflexivity|].
      eexists _, _, _, _, _, _. split; [exact Hsolve|].
      repeat split. exact Hlen.
  - intros adapter cl cu x info adapter' Hinit Hcb nlp items Hp Hacc Hsolve.
    subst run.
    rewrite (minimize_ipopt_setup _ _ _ _ _ _ _ _ _ _ _ _ _ _ _ _ Hinit Hcb Hl).
    cbv zeta. fold nlp. rewrite Hp.
    assert (deref (options_object options w)
              {| heap := heap (with_options_object options w);
                 trace := trace w ++ [EvProblem nlp] |}
            = match options with Some l => deref l w | None => [] end) as Hd.
    { destruct options as [l|]; [reflexivity|].
      unfold deref. cbn. rewrite lookup_insert_eq. reflexivity. }
    rewrite Hd. fold items.
    unfold after_setup. rewrite (add_options_accepted _ _ _ _ Hacc), Hsolve.
    pose proof (Hsolver _ _ _ _ _ _ _ Hsolve) as Hlen. cbn in Hlen.
    unfold assemble, unwrap.
    destruct x0 as [f0|v]; cbn in Hlen |- *.
    + destruct x as [|f ?]; [discriminate|]. cbn.
      eexists _, _. split; [reflexivity|]. split; reflexivity.
    + eexists _, _. split; [reflexivity|]. split; reflexivity.
Qed.

Lemma example_solver_dimension nlp items adapter x0 x info adapter' :
  solve example_solver nlp items adapter x0 = (Ok (x, info), adapter') ->
  length x = nlp_n nlp.
Proof.
  cbn. destruct (Nat.eqb_spec (length x0) (nlp_n nlp)) as [E|]; [|discriminate].
  intros [= <- _ _]. exact E.
Qed.

Lemma result_record_witness :
  let r := fst (minimize_ipopt example_solver example_combined
                  (Scalar 2%float) [] None JacTrue None None None (ConSeq [])
                  None None example_world) in
  exists record,
    r = Ok record /\
    OptimizeResult.success record = true /\
    OptimizeResult.x record = Scalar 2%float.
Proof.
  cbv zeta.
  destruct (minimize_ipopt example_solver example_combined (Scalar 2%float)
              [] None JacTrue None None None (ConSeq []) None None
              example_world) as [[record|e] w'] eqn:Hrun;
    [|vm_compute in Hrun; discriminate].
  exists record.
  destruct (result_record example_solver example_combined (Scalar 2%float)
              [] None JacTrue None None None (ConSeq []) None None
              example_world example_solver_dimension
              (fun l (H : None = Some l) => ltac:(discriminate)))
    as (Hrecord & _).
  destruct (Hrecord _ _ Hrun) as (Hs & _).
  vm_compute in Hrun. injection Hrun as <- _.
  repeat split.
Defined.

(** ** The caller's dictionary *)

Lemma translated_has_defaults tol d key :
  In key default_keys -> dict_in key (translated_entries tol d) = true.
Proof.
  unfold default_keys, dict_in.
  intros [<-|[<-|[<-|[<-|[]]]]].
  - rewrite translated_print_level.
    destruct (dict_get "print_level" d); [reflexivity|].
    destruct (dict_get "disp" d); reflexivity.
  - rewrite (translated_default tol d "tol" _ eq_refl).
    destruct (dict_get "tol" d); reflexivity.
  - rewrite (translated_default tol d "mu_strategy" _ eq_refl).
    destruct (dict_get "mu_strategy" d); reflexivity.
  - rewrite (translated_default tol d "hessian_approximation" _ eq_refl).
    destruct (dict_get "hessian_approximation" d); reflexivity.
Qed.



(** * Further properties of the adapter *)

Lemma evaluate_counters self x :
  let self' := snd (IpoptProblemWrapper.evaluate_fun_with_grad self x) in
  (nfev self' = nfev self \/ nfev self' = nfev self + 1) /\
  njev self' = njev self.
Proof.
  unfold IpoptProblemWrapper.evaluate_fun_with_grad,
    IpoptProblemWrapper.return_last_value. cbv zeta.
  destruct (match last_x self with
            | Some last => negb (np_all_eq last x)
            | None => true
            end); cbn.
  - destruct (IpoptProblemWrapper.fun_ self x _ _); cbn; split; auto.
  - destruct (last_value self); cbn; split; auto.
Qed.

Lemma step_counters a b :
  step a b -> nfev a <= nfev b /\ njev a <= njev b.
Proof.
  destruct 1 as [self x|self x|self].
  - unfold IpoptProblemWrapper.objective.
    destruct (fun_with_jac self).
    + pose proof (evaluate_counters self x) as H. cbv zeta in H.
      destruct (IpoptProblemWrapper.evaluate_fun_with_grad self x).
      cbn in *. lia.
    + cbn. lia.
  - unfold IpoptProblemWrapper.gradient.
    destruct (fun_with_jac self).
    + pose proof (evaluate_counters self x) as H. cbv zeta in H.
      destruct (IpoptProblemWrapper.evaluate_fun_with_grad self x).
      cbn in *. lia.
    + cbn. destruct (IpoptProblemWrapper.jac self); cbn; lia.
  - cbn. lia.
Qed.

(** The counters of evaluations start at 0 and never decrease: the
    adapter as constructed has [nfev = 0] and [njev = 0], and between
    any two of its later states neither counter goes down, whatever the
    solver calls and whatever the user's functions raise. (The
    iteration count [nit] is whatever the solver reported last.) *)
Theorem evaluation_counters_never_decrease
    fun_ args kwargs jac hess hessp constraints eps self0 self self' :
  IpoptProblemWrapper.__init__ fun_ args kwargs jac hess hessp
    constraints eps = Ok self0 ->
  rtc step self0 self ->
  rtc step self self' ->
  nfev self0 = 0 /\ njev self0 = 0 /\
  0 <= nfev self /\ nfev self <= nfev self' /\
  0 <= njev self /\ njev self <= njev self'.
Proof.
  intros Hinit H0 H1.
  destruct (init_inv _ _ _ _ _ _ _ _ _ Hinit)
    as (_ & _ & _ & _ & _ & _ & _ & _ & _ & _ & Hn & Hj & _).
  assert (forall a b, rtc step a b -> nfev a <= nfev b /\ njev a <= njev b)
    as Hmono.
  { induction 1 as [|a b c Hab _ IH]; [lia|].
    apply step_counters in Hab. lia. }
  pose proof (Hmono _ _ H0). pose proof (Hmono _ _ H1).
  split; [exact Hn|]. split; [exact Hj|]. lia.
Qed.

Lemma evaluation_counters_never_decrease_witness :
  let self0 :=
    IpoptProblemWrapper.mk (Some example_combined) None None example_combined
      IpoptProblemWrapper.JTrue [] [] [] [] [] 0 0 0 in
  let self := snd (IpoptProblemWrapper.objective self0 example_point) in
  let self' := snd (IpoptProblemWrapper.gradient self example_other_point) in
  nfev self <= nfev self' /\ njev self <= njev self'.
Proof.
  intros self0 self self'.
  pose proof (evaluation_counters_never_decrease example_combined [] None
                JacTrue None None (ConSeq []) eps_default self0 self self'
                eq_refl
                (rtc_once _ _ (step_objective self0 example_point))
                (rtc_once _ _ (step_gradient self example_other_point)))
    as (_ & _ & _ & H1 & _ & H2).
  split; assumption.
Defined.

(** An adapter constructed with [jac=True] never counts a gradient
    evaluation: [njev] is 0 for its whole life. The cost of a gradient
    requested first, at a point the cache does not hold, goes to [nfev]. *)
Theorem combined_mode_never_counts_gradients
    fun_ args kwargs constraints eps self0 self :
  IpoptProblemWrapper.__init__ fun_ args kwargs JacTrue None None
    constraints eps = Ok self0 ->
  rtc step self0 self ->
  njev self = 0 /\
  forall x, cache_miss self x ->
    nfev (snd (IpoptProblemWrapper.gradient self x)) = nfev self + 1 /\
    njev (snd (IpoptProblemWrapper.gradient self x)) = 0.
Proof.
  intros Hinit Hlife.
  destruct (init_inv _ _ _ _ _ _ _ _ _ Hinit)
    as (_ & _ & _ & Hmode0 & _ & _ & _ & _ & _ & _ & _ & Hj0 & _).
  assert (forall a b, rtc step a b ->
            fun_with_jac a = Some fun_ -> njev a = 0 -> njev b = 0) as Hinv.
  { induction 1 as [|a b c Hab _ IH]; intros Hm Hz; [exact Hz|].
    apply IH.
    - destruct (step_same_setup _ _ Hab) as [-> _]. exact Hm.
    - destruct Hab as [s x|s x|s]; cbn.
      + destruct (objective_combined s x fun_ Hm) as [-> _].
        destruct (evaluate_counters s x) as [_ ->]. exact Hz.
      + destruct (gradient_combined s x fun_ Hm) as [-> _].
        destruct (evaluate_counters s x) as [_ ->]. exact Hz.
      + exact Hz. }
  assert (njev self = 0) as Hz by (eapply Hinv; eassumption).
  split; [exact Hz|].
  intros x Hmiss.
  destruct (rtc_same_setup _ _ Hlife) as (Hmode & _).
  rewrite Hmode0 in Hmode.
  destruct (gradient_combined self x fun_ Hmode) as [-> _].
  destruct (evaluate_miss self x Hmiss) as (Hn & Hj & _).
  rewrite Hn, Hj, Hz. split; reflexivity.
Qed.

Lemma combined_mode_never_counts_gradients_witness :
  let self0 :=
    IpoptProblemWrapper.mk (Some example_combined) None None example_combined
      IpoptProblemWrapper.JTrue [] [] [] [] [] 0 0 0 in
  let self := snd (IpoptProblemWrapper.gradient self0 example_point) in
  njev self = 0 /\
  nfev (snd (IpoptProblemWrapper.gradient self example_other_point)) = 2.
Proof.
  intros self0 self.
  pose proof (combined_mode_never_counts_gradients example_combined [] None
                (ConSeq []) eps_default self0 self eq_refl
                (rtc_once _ _ (step_gradient self0 example_point)))
    as (Hz & Hg).
  split; [exact Hz|]. exact (proj1 (Hg example_other_point eq_refl)).
Defined.

(** An adapter constructed with a [jac] that is not [True] has no cache:
    [last_x] stays [None] for its whole life, and every call of
    [objective] calls the user's function and adds exactly 1 to [nfev],
    also at the point of the call before. *)
Theorem separate_mode_never_caches
    fun_ args kwargs jac constraints eps self0 self x :
  IpoptProblemWrapper.__init__ fun_ args kwargs jac None None
    constraints eps = Ok self0 ->
  jac <> JacTrue ->
  rtc step self0 self ->
  let once := snd (IpoptProblemWrapper.objective self x) in
  let twice := snd (IpoptProblemWrapper.objective once x) in
  last_x self = None /\ last_value self = None /\
  fst (IpoptProblemWrapper.objective self x)
    = fun_ x args (default [] kwargs) /\
  nfev once = nfev self + 1 /\ njev once = njev self /\
  nfev twice = nfev self + 2.
Proof.
  intros Hinit Hjac Hlife. cbv zeta.
  destruct (init_inv _ _ _ _ _ _ _ _ _ Hinit)
    as (_ & _ & _ & Hmode0 & _ & Hfun0 & Hargs0 & Hkw0 & Hx0 & Hv0 & _).
  assert (fun_with_jac self0 = None) as Hnone0.
  { rewrite Hmode0. destruct jac; congruence. }
  assert (forall a b, rtc step a b ->
            fun_with_jac a = None ->
            last_x a = None /\ last_value a = None ->
            last_x b = None /\ last_value b = None) as Hinv.
  { induction 1 as [|a b c Hab _ IH]; intros Hm Hc; [exact Hc|].
    apply IH.
    - destruct (step_same_setup _ _ Hab) as [-> _]. exact Hm.
    - destruct Hab as [s y|s y|s];
        unfold IpoptProblemWrapper.objective, IpoptProblemWrapper.gradient;
        try rewrite Hm; cbn; try exact Hc.
      destruct (IpoptProblemWrapper.jac s); exact Hc. }
  destruct (Hinv _ _ Hlife Hnone0 (conj Hx0 Hv0)) as [Hx Hv].
  destruct (rtc_same_setup _ _ Hlife) as (Hmode & Hfun & _ & Hargs & Hkw & _).
  rewrite Hnone0 in Hmode.
  unfold IpoptProblemWrapper.objective. rewrite Hmode. cbn. rewrite Hmode. cbn.
  rewrite Hfun, Hargs, Hkw, Hfun0, Hargs0, Hkw0.
  repeat split; try assumption; lia.
Qed.

Lemma separate_mode_never_caches_witness :
  let self0 :=
    IpoptProblemWrapper.mk None None None example_objective
      (IpoptProblemWrapper.JFun
         (IpoptProblemWrapper.approx_jac example_objective eps_default))
      [] [] [] [] [] 0 0 0 in
  let once := snd (IpoptProblemWrapper.objective self0 example_point) in
  nfev (snd (IpoptProblemWrapper.objective once example_point)) = 2.
Proof.
  intros self0 once.
  pose proof (separate_mode_never_caches example_objective [] None JacNone
                (ConSeq []) eps_default self0 self0 example_point
                eq_refl ltac:(discriminate) (rtc_refl _ _))
    as (_ & _ & _ & _ & _ & H).
  exact H.
Defined.

(** On an adapter whose cache is coherent and whose objective is defined
    everywhere, an evaluation leaves a coherent cache and returns the
    value of the objective at the point the cache holds afterwards. *)
Lemma evaluate_coherent self x :
  (forall y, is_ok (IpoptProblemWrapper.fun_ self y
                      (IpoptProblemWrapper.args self)
                      (IpoptProblemWrapper.kwargs self)) = true) ->
  coherent self ->
  let self' := snd (IpoptProblemWrapper.evaluate_fun_with_grad self x) in
  coherent self' /\
  exists last v,
    last_x self' = Some last /\
    IpoptProblemWrapper.fun_ self last (IpoptProblemWrapper.args self)
      (IpoptProblemWrapper.kwargs self) = Ok v /\
    fst (IpoptProblemWrapper.evaluate_fun_with_grad self x) = Ok v /\
    (cache_miss self x -> last = x) /\
    (~ cache_miss self x -> last_x self = Some last).
Proof.
  intros Htotal Hcoh. cbv zeta.
  unfold IpoptProblemWrapper.evaluate_fun_with_grad,
    IpoptProblemWrapper.return_last_value, coherent, cache_miss in *.
  destruct (last_x self) as [last|] eqn:Hlast.
  - destruct (np_all_eq last x) eqn:Heq; cbn.
    + destruct Hcoh as (v & Hv & Hlv). rewrite Hlv. cbn. rewrite Hlast.
      split; [exists v; split; assumption|].
      exists last, v.
      split; [reflexivity|]. split; [exact Hv|]. split; [reflexivity|].
      split; [discriminate|reflexivity].
    + specialize (Htotal x).
      destruct (IpoptProblemWrapper.fun_ self x _ _) as [v|e] eqn:Hx;
        [|discriminate]. cbn.
      split; [exists v; split; [exact Hx|reflexivity]|].
      exists x, v.
      split; [reflexivity|]. split; [exact Hx|]. split; [reflexivity|].
      split; [reflexivity|]. intros H. congruence.
  - cbn. specialize (Htotal x).
    destruct (IpoptProblemWrapper.fun_ self x _ _) as [v|e] eqn:Hx;
      [|discriminate]. cbn.
    split; [exists v; split; [exact Hx|reflexivity]|].
    exists x, v.
    split; [reflexivity|]. split; [exact Hx|]. split; [reflexivity|].
    split; [reflexivity|]. intros H. tauto.
Qed.

(** With an objective that is defined everywhere, the cache of an
    adapter constructed with [jac=True] is coherent for its whole life:
    it holds a point and the value of the objective at that point. What
    [objective] and [gradient] return at [x] are the components 0 and 1
    of the value at the point the cache holds after the call, which is
    [x] itself unless the cache held a point equal to [x] under the
    exact comparison. *)
Theorem combined_cache_is_coherent
    fun_ args kwargs constraints eps self0 self x :
  IpoptProblemWrapper.__init__ fun_ args kwargs JacTrue None None
    constraints eps = Ok self0 ->
  (forall y, is_ok (fun_ y args (default [] kwargs)) = true) ->
  rtc step self0 self ->
  coherent self /\
  exists last v,
    fun_ last args (default [] kwargs) = Ok v /\
    (cache_miss self x -> last = x) /\
    (~ cache_miss self x -> last_x self = Some last) /\
    last_x (snd (IpoptProblemWrapper.objective self x)) = Some last /\
    fst (IpoptProblemWrapper.objective self x) = getitem v 0 /\
    last_x (snd (IpoptProblemWrapper.gradient self x)) = Some last /\
    fst (IpoptProblemWrapper.gradient self x) = getitem v 1.
Proof.
  intros Hinit Htotal Hlife.
  destruct (init_inv _ _ _ _ _ _ _ _ _ Hinit)
    as (_ & _ & _ & Hmode0 & _ & Hfun0 & Hargs0 & Hkw0 & Hx0 & Hv0 & _).
  assert (forall a,
            IpoptProblemWrapper.fun_ a = fun_ ->
            IpoptProblemWrapper.args a = args ->
            IpoptProblemWrapper.kwargs a = default [] kwargs ->
            forall y, is_ok (IpoptProblemWrapper.fun_ a y
                               (IpoptProblemWrapper.args a)
                               (IpoptProblemWrapper.kwargs a)) = true)
    as Htot.
  { intros a -> -> -> y. apply Htotal. }
  assert (forall a b, rtc step a b ->
            fun_with_jac a = Some fun_ ->
            IpoptProblemWrapper.fun_ a = fun_ ->
            IpoptProblemWrapper.args a = args ->
            IpoptProblemWrapper.kwargs a = default [] kwargs ->
            coherent a -> coherent b) as Hinv.
  { induction 1 as [|a b c Hab _ IH]; intros Hm Hf Ha Hk Hc; [exact Hc|].
    destruct (step_same_setup _ _ Hab)
      as (Em & Ef & _ & Ea & Ek & _).
    apply IH; try congruence.
    destruct Hab as [s y|s y|s].
    - destruct (objective_combined s y fun_ Hm) as [-> _].
      apply (evaluate_coherent s y (Htot s Hf Ha Hk) Hc).
    - destruct (gradient_combined s y fun_ Hm) as [-> _].
      apply (evaluate_coherent s y (Htot s Hf Ha Hk) Hc).
    - exact Hc. }
  assert (coherent self0) as Hc0.
  { unfold coherent. rewrite Hx0. exact Hv0. }
  pose proof (Hinv _ _ Hlife Hmode0 Hfun0 Hargs0 Hkw0 Hc0) as Hcoh.
  split; [exact Hcoh|].
  destruct (rtc_same_setup _ _ Hlife) as (Hmode & Hfun & _ & Hargs & Hkw & _).
  rewrite Hmode0 in Hmode. rewrite Hfun0 in Hfun. rewrite Hargs0 in Hargs.
  rewrite Hkw0 in Hkw.
  destruct (evaluate_coherent self x (Htot self Hfun Hargs Hkw) Hcoh)
    as (_ & last & v & Hl & Hv & Hr & Hmiss & Hhit).
  rewrite Hfun, Hargs, Hkw in Hv.
  exists last, v.
  destruct (objective_combined self x fun_ Hmode) as [-> ->].
  destruct (gradient_combined self x fun_ Hmode) as [-> ->].
  rewrite Hr. cbn. repeat split; assumption.
Qed.

Lemma combined_cache_is_coherent_witness :
  let self0 :=
    IpoptProblemWrapper.mk (Some example_combined) None None example_combined
      IpoptProblemWrapper.JTrue [] [] [] [] [] 0 0 0 in
  let self := snd (IpoptProblemWrapper.objective self0 example_point) in
  coherent self.
Proof.
  intros self0 self.
  exact (proj1 (combined_cache_is_coherent example_combined [] None
                  (ConSeq []) eps_default self0 self example_point eq_refl
                  (fun y => eq_refl)
                  (rtc_once _ _ (step_objective self0 example_point)))).
Defined.

(** An objective that raises leaves the cache incoherent. In the
    combined mode, when the objective raises at a point [x] the cache
    does not hold, the exception propagates, but [x] has already been
    recorded as the cached point and counted in [nfev]. A second request
    at [x] (a point equal to itself) then does not call the objective:
    it returns the component of the value cached for the point before,
    or raises [AttributeError] when nothing was cached yet. *)
Theorem failed_evaluation_leaves_stale_cache
    fun_ args kwargs constraints eps self0 self x e :
  IpoptProblemWrapper.__init__ fun_ args kwargs JacTrue None None
    constraints eps = Ok self0 ->
  rtc step self0 self ->
  cache_miss self x ->
  np_all_eq x x = true ->
  fun_ x args (default [] kwargs) = Err e ->
  let first := IpoptProblemWrapper.objective self x in
  let second := IpoptProblemWrapper.objective (snd first) x in
  fst first = Err e /\
  last_x (snd first) = Some x /\
  last_value (snd first) = last_value self /\
  nfev (snd first) = nfev self + 1 /\
  fst second =
    match last_value self with
    | Some stale => getitem stale 0
    | None => Err (AttributeError "last_value")
    end /\
  nfev (snd second) = nfev self + 1.
Proof.
  intros Hinit Hlife Hmiss Hself Herr. cbv zeta.
  destruct (init_inv _ _ _ _ _ _ _ _ _ Hinit)
    as (_ & _ & _ & Hmode0 & _ & Hfun0 & Hargs0 & Hkw0 & _).
  destruct (rtc_same_setup _ _ Hlife) as (Hmode & Hfun & _ & Hargs & Hkw & _).
  rewrite Hmode0 in Hmode.
  assert (IpoptProblemWrapper.fun_ self x (IpoptProblemWrapper.args self)
            (IpoptProblemWrapper.kwargs self) = Err e) as Herr'.
  { rewrite Hfun, Hargs, Hkw, Hfun0, Hargs0, Hkw0. exact Herr. }
  assert (IpoptProblemWrapper.evaluate_fun_with_grad self x
          = (Err e, IpoptProblemWrapper.set_nfev
                      (IpoptProblemWrapper.set_last_x self (Some x))
                      (nfev self + 1))) as Hev.
  { unfold IpoptProblemWrapper.evaluate_fun_with_grad.
    unfold cache_miss in Hmiss.
    destruct (last_x self) as [last|]; [rewrite Hmiss|]; cbn;
      rewrite Herr'; reflexivity. }
  set (self1 := IpoptProblemWrapper.set_nfev
                  (IpoptProblemWrapper.set_last_x self (Some x))
                  (nfev self + 1)) in *.
  assert (IpoptProblemWrapper.objective self x = (Err e, self1)) as Hfirst.
  { unfold IpoptProblemWrapper.objective. rewrite Hmode, Hev. reflexivity. }
  assert (IpoptProblemWrapper.objective self1 x
          = (match last_value self with
             | Some stale => getitem stale 0
             | None => Err (AttributeError "last_value")
             end, self1)) as Hsecond.
  { unfold IpoptProblemWrapper.objective.
    replace (fun_with_jac self1) with (Some fun_) by (symmetry; exact Hmode).
    unfold IpoptProblemWrapper.evaluate_fun_with_grad,
      IpoptProblemWrapper.return_last_value.
    replace (last_x self1) with (Some x) by reflexivity.
    rewrite Hself. cbn [negb].
    replace (last_value self1) with (last_value self) by reflexivity.
    destruct (last_value self); reflexivity. }
  rewrite Hfirst. cbn [fst snd]. rewrite Hsecond. cbn [fst snd].
  repeat split.
Qed.

Lemma failed_evaluation_leaves_stale_cache_witness :
  let partial : objective_fn :=
    fun x _ _ =>
      match x with
      | Vec [a; b] =>
          if PrimFloat.eqb b 3%float then Err (Raised "undefined")
          else Ok (PTuple [Scalar a; x])
      | _ => Err (Raised "two variables expected")
      end in
  let self0 :=
    IpoptProblemWrapper.mk (Some partial) None None partial
      IpoptProblemWrapper.JTrue [] [] [] [] [] 0 0 0 in
  let self := snd (IpoptProblemWrapper.objective self0 example_point) in
  let first := IpoptProblemWrapper.objective self example_other_point in
  fst first = Err (Raised "undefined") /\
  fst (IpoptProblemWrapper.objective (snd first) example_other_point)
    = Ok (PArr (Scalar 1%float)).
Proof.
  intros partial self0 self first.
  pose proof (failed_evaluation_leaves_stale_cache partial [] None
                (ConSeq []) eps_default self0 self example_other_point
                (Raised "undefined") eq_refl
                (rtc_once _ _ (step_objective self0 example_point))
                eq_refl eq_refl eq_refl) as (H1 & _ & _ & _ & H2 & _).
  split; [exact H1|exact H2].
Defined.

(** A point with a component that is not equal to itself (a NaN) is
    never served from the cache: in the combined mode every request at
    such a point evaluates the objective again, so [objective] followed
    by [gradient] at that point adds 2 to [nfev]. *)
Theorem nan_point_is_never_cached
    fun_ args kwargs constraints eps self0 self x :
  IpoptProblemWrapper.__init__ fun_ args kwargs JacTrue None None
    constraints eps = Ok self0 ->
  rtc step self0 self ->
  cache_miss self x ->
  np_all_eq x x = false ->
  let after_objective := snd (IpoptProblemWrapper.objective self x) in
  let after_gradient :=
    snd (IpoptProblemWrapper.gradient after_objective x) in
  nfev after_objective = nfev self + 1 /\
  nfev after_gradient = nfev self + 2 /\
  njev after_gradient = njev self.
Proof.
  intros Hinit Hlife Hmiss Hnan. cbv zeta.
  destruct (init_inv _ _ _ _ _ _ _ _ _ Hinit) as (_ & _ & _ & Hmode0 & _).
  destruct (rtc_same_setup _ _ Hlife) as (Hmode & _).
  rewrite Hmode0 in Hmode.
  destruct (objective_combined self x fun_ Hmode) as [Hobj _].
  destruct (evaluate_miss self x Hmiss) as (Hn & Hj & Hx & _).
  rewrite <- Hobj in Hn, Hj, Hx.
  assert (fun_with_jac (snd (IpoptProblemWrapper.objective self x))
          = Some fun_) as Hmode1.
  { destruct (step_same_setup _ _ (step_objective self x)) as [-> _].
    exact Hmode. }
  destruct (gradient_combined _ x fun_ Hmode1) as [-> _].
  assert (cache_miss (snd (IpoptProblemWrapper.objective self x)) x) as Hmiss'.
  { unfold cache_miss. rewrite Hx. exact Hnan. }
  destruct (evaluate_miss _ x Hmiss') as (Hn' & Hj' & _).
  rewrite Hn', Hj', Hn, Hj. repeat split; lia.
Qed.

Lemma nan_point_is_never_cached_witness :
  let self0 :=
    IpoptProblemWrapper.mk (Some example_combined) None None example_combined
      IpoptProblemWrapper.JTrue [] [] [] [] [] 0 0 0 in
  let x := Vec [1%float; PrimFloat.nan] in
  nfev (snd (IpoptProblemWrapper.gradient
               (snd (IpoptProblemWrapper.objective self0 x)) x)) = 2.
Proof.
  intros self0 x.
  pose proof (nan_point_is_never_cached example_combined [] None
                (ConSeq []) eps_default self0 self0 x eq_refl
                (rtc_refl _ _) I eq_refl) as (_ & H & _).
  exact H.
Defined.

(** A [jac] that is neither [None], [True] nor a callable is refused by
    the constructor with [NotImplementedError], unless a Hessian is
    passed as well, whose refusal comes first; the entry operation then
    fails before it has written into the store or called the solver. *)
Theorem invalid_jac_is_refused cy fun_ x0 args kwargs hess hessp bounds
    constraints tol options eps w :
  IpoptProblemWrapper.__init__ fun_ args kwargs JacOther hess hessp
    constraints eps
    = Err (NotImplementedError
             (match hess, hessp with
              | None, None => "jac has to be bool or a function"
              | _, _ => "Using hessian matrixes is not yet implemented!"
              end)) /\
  minimize_ipopt cy fun_ x0 args kwargs JacOther hess hessp bounds
    constraints tol options w
    = (Err (NotImplementedError
              (match hess, hessp with
               | None, None => "jac has to be bool or a function"
               | _, _ => "Using hessian matrixes is not yet implemented!"
               end)), w).
Proof.
  assert (forall eps,
            IpoptProblemWrapper.__init__ fun_ args kwargs JacOther hess hessp
              constraints eps
            = Err (NotImplementedError
                     (match hess, hessp with
                      | None, None => "jac has to be bool or a function"
                      | _, _ => "Using hessian matrixes is not yet implemented!"
                      end))) as Hinit.
  { intros eps'. unfold IpoptProblemWrapper.__init__.
    destruct hess, hessp; reflexivity. }
  split; [apply Hinit|]. apply minimize_ipopt_init_error, Hinit.
Qed.

(** An adapter without constraints cannot answer [constraints(x)] or
    [jacobian(x)]: both raise [ValueError], because [np.hstack] and
    [np.vstack] are given an empty list. *)
Theorem no_constraints_no_stack
    fun_ args kwargs jac hess hessp constraints eps self0 self x :
  IpoptProblemWrapper.__init__ fun_ args kwargs jac hess hessp
    constraints eps = Ok self0 ->
  rtc step self0 self ->
  as_sequence constraints = [] ->
  IpoptProblemWrapper.constraints self x
    = Err (ValueError "need at least one array to concatenate") /\
  IpoptProblemWrapper.jacobian self x
    = Err (ValueError "need at least one array to concatenate").
Proof.
  intros Hinit Hlife Hempty.
  destruct (init_inv _ _ _ _ _ _ _ _ _ Hinit)
    as (_ & _ & _ & _ & _ & _ & _ & _ & _ & _ & _ & _ & _ & Hcol).
  destruct (rtc_same_setup _ _ Hlife) as (_ & _ & _ & _ & _ & Hf & Hj & Ha).
  rewrite Hempty in Hcol. cbn in Hcol. injection Hcol as Hf0 Hj0 Ha0.
  unfold IpoptProblemWrapper.constraints, IpoptProblemWrapper.jacobian.
  rewrite Hf, Hj, Ha, <- Hf0, <- Hj0, <- Ha0. split; reflexivity.
Qed.

Lemma no_constraints_no_stack_witness :
  let self0 :=
    IpoptProblemWrapper.mk None None None example_objective
      (IpoptProblemWrapper.JFun
         (IpoptProblemWrapper.approx_jac example_objective eps_default))
      [] [] [] [] [] 0 0 0 in
  is_ok (IpoptProblemWrapper.constraints self0 example_point) = false.
Proof.
  intros self0.
  destruct (no_constraints_no_stack example_objective [] None JacNone None
              None (ConSeq []) eps_default self0 self0 example_point eq_refl
              (rtc_refl _ _) eq_refl) as [-> _].
  reflexivity.
Defined.

(** With [jac=None] and keyword arguments for the objective, the
    gradient cannot be computed: the keyword arguments are handed to
    [approx_fprime], which takes none, so every call of [gradient]
    raises [TypeError] (and is still counted in [njev]), while
    [objective] passes them to the user's function. *)
Theorem finite_differences_refuse_keyword_arguments
    fun_ args kwargs constraints eps self0 self x :
  IpoptProblemWrapper.__init__ fun_ args (Some kwargs) JacNone None None
    constraints eps = Ok self0 ->
  rtc step self0 self ->
  kwargs <> [] ->
  fst (IpoptProblemWrapper.gradient self x)
    = Err (TypeError "approx_fprime() got an unexpected keyword argument") /\
  njev (snd (IpoptProblemWrapper.gradient self x)) = njev self + 1 /\
  fst (IpoptProblemWrapper.objective self x) = fun_ x args kwargs.
Proof.
  intros Hinit Hlife Hkw.
  destruct (init_inv _ _ _ _ _ _ _ _ _ Hinit)
    as (_ & _ & _ & Hmode0 & Hjac0 & Hfun0 & Hargs0 & Hkw0 & _).
  destruct (rtc_same_setup _ _ Hlife)
    as (Hmode & Hfun & Hjacf & Hargs & Hkws & _).
  rewrite Hmode0 in Hmode. rewrite Hjac0 in Hjacf.
  unfold IpoptProblemWrapper.gradient, IpoptProblemWrapper.objective.
  rewrite Hmode. cbn. rewrite Hjacf, Hkws, Hkw0, Hargs, Hargs0, Hfun, Hfun0.
  cbn. destruct kwargs; [congruence|]. repeat split.
Qed.

Lemma finite_differences_refuse_keyword_arguments_witness :
  let kwargs := [("scale", VInt 2)] in
  let self0 :=
    IpoptProblemWrapper.mk None None None example_objective
      (IpoptProblemWrapper.JFun
         (IpoptProblemWrapper.approx_jac example_objective eps_default))
      [] kwargs [] [] [] 0 0 0 in
  is_ok (fst (IpoptProblemWrapper.gradient self0 example_point)) = false /\
  is_ok (fst (IpoptProblemWrapper.objective self0 example_point)) = true.
Proof.
  intros kwargs self0.
  destruct (finite_differences_refuse_keyword_arguments example_objective []
              kwargs (ConSeq []) eps_default self0 self0 example_point
              eq_refl (rtc_refl _ _) ltac:(discriminate)) as (-> & _ & ->).
  split; reflexivity.
Defined.

(** ** Further properties of the bound translators *)

(** [get_bounds] splits the pairs and loses nothing: without bounds both
    results are [None]; with bounds they are two lists of the length of
    [bounds] whose pairing gives [bounds] back. *)
Theorem get_bounds_round_trip bounds :
  match bounds with
  | None => get_bounds bounds = (None, None)
  | Some pairs =>
      exists lb ub,
        get_bounds bounds = (Some lb, Some ub) /\
        length lb = length pairs /\ length ub = length pairs /\
        zip lb ub = pairs
  end.
Proof.
  destruct bounds as [pairs|]; [|reflexivity].
  exists (map fst pairs), (map snd pairs). cbn.
  rewrite !length_map. repeat split.
  induction pairs as [|[l u] pairs IH]; cbn; [reflexivity|].
  f_equal. exact IH.
Qed.

Lemma repeat_Forall {A : Type} (P : A -> Prop) (a : A) n :
  P a -> Forall P (repeat a n).
Proof. intros H. induction n; cbn; constructor; assumption. Qed.

Lemma get_constraint_bounds_loop_shape constraints x0 INF cl cu cl' cu' :
  get_constraint_bounds_loop constraints x0 INF cl cu = Ok (cl', cu') ->
  exists dl du,
    cl' = cl ++ dl /\ cu' = cu ++ du /\
    length dl = length du /\
    length dl = list_sum (map (arity x0) constraints) /\
    Forall (fun a => a = 0%float) dl /\
    Forall (fun a => a = 0%float \/ a = PrimFloat.mul INF 1%float) du /\
    Forall (defined_at x0) constraints /\ Forall known_type constraints.
Proof.
  revert cl cu cl' cu'.
  induction constraints as [|con rest IH]; intros cl cu cl' cu'.
  - cbn. intros [= <- <-]. exists [], []. rewrite !app_nil_r.
    split; [reflexivity|]. split; [reflexivity|]. split; [reflexivity|].
    split; [reflexivity|]. repeat split; constructor.
  - cbn [get_constraint_bounds_loop].
    destruct (con_fun con x0 (default [] (con_args con))) as [v|e] eqn:Hv;
      [|discriminate].
    assert (arity x0 con = length (atleast_1d v)) as Har
      by (unfold arity; rewrite Hv; reflexivity).
    assert (defined_at x0 con) as Hdc
      by (unfold defined_at; rewrite Hv; reflexivity).
    set (m := length (atleast_1d v)) in *.
    destruct (String.eqb_spec (con_type con) "eq") as [Heq|Hneq].
    + intros H.
      destruct (IH _ _ _ _ H)
        as (dl & du & -> & -> & Hl & Hs & Hz & Hu & Hd & Hk).
      exists (np_zeros m ++ dl), (np_zeros m ++ du).
      split; [rewrite <- app_assoc; reflexivity|].
      split; [rewrite <- app_assoc; reflexivity|].
      split; [rewrite !length_app; lia|].
      split; [rewrite length_app; unfold np_zeros; rewrite repeat_length;
              change (list_sum (map (arity x0) (con :: rest)))
                with (arity x0 con + list_sum (map (arity x0) rest))%nat;
              lia|].
      split; [apply Forall_app; split;
              [apply repeat_Forall; reflexivity|exact Hz]|].
      split; [apply Forall_app; split;
              [apply repeat_Forall; left; reflexivity|exact Hu]|].
      split; constructor; try assumption. left. exact Heq.
    + destruct (String.eqb_spec (con_type con) "ineq") as [Hineq|Hnineq];
        [|discriminate].
      intros H.
      destruct (IH _ _ _ _ H)
        as (dl & du & -> & -> & Hl & Hs & Hz & Hu & Hd & Hk).
      exists (np_zeros m ++ dl), (np_scale INF (np_ones m) ++ du).
      assert (np_scale INF (np_ones m)
              = repeat (PrimFloat.mul INF 1%float) m) as Hsc.
      { unfold np_scale, np_ones. clear. induction m; cbn; [reflexivity|].
        f_equal. assumption. }
      split; [rewrite <- app_assoc; reflexivity|].
      split; [rewrite <- app_assoc; reflexivity|].
      split; [rewrite !length_app, Hsc; unfold np_zeros;
              rewrite !repeat_length; lia|].
      split; [rewrite length_app; unfold np_zeros; rewrite repeat_length;
              change (list_sum (map (arity x0) (con :: rest)))
                with (arity x0 con + list_sum (map (arity x0) rest))%nat;
              lia|].
      split; [apply Forall_app; split;
              [apply repeat_Forall; reflexivity|exact Hz]|].
      split; [apply Forall_app; split;
              [rewrite Hsc; apply repeat_Forall; right; reflexivity|exact Hu]|].
      split; constructor; try assumption. right. exact Hineq.
Qed.

(** Whatever the constraints, the probe point and [INF]: when
    [get_constraint_bounds] returns, [cl] and [cu] have the same length,
    the sum of the numbers of values of the constraints at the probe
    point; every entry of [cl] is [0] and every entry of [cu] is [0] or
    [INF * 1]; and it returns only if every constraint function was
    defined at the probe point and every type was ['eq'] or ['ineq']. *)
Theorem constraint_bounds_shape constraints x0 INF cl cu :
  get_constraint_bounds constraints x0 INF = Ok (cl, cu) ->
  length cl = length cu /\
  length cl = list_sum (map (arity x0) (as_sequence constraints)) /\
  Forall (fun a => a = 0%float) cl /\
  Forall (fun a => a = 0%float \/ a = PrimFloat.mul INF 1%float) cu /\
  Forall (defined_at x0) (as_sequence constraints) /\
  Forall known_type (as_sequence constraints).
Proof.
  unfold get_constraint_bounds. intros H.
  destruct (get_constraint_bounds_loop_shape _ _ _ _ _ _ _ H)
    as (dl & du & -> & -> & Hl & Hs & Hz & Hu & Hd & Hk).
  cbn. repeat split; assumption.
Qed.

Lemma constraint_bounds_shape_witness :
  exists cl cu,
    get_constraint_bounds (ConSeq [example_con_ineq; example_con_eq])
      example_point INF_default = Ok (cl, cu) /\
    length cl = 3%nat /\ length cu = 3%nat.
Proof.
  exists [0%float; 0%float; 0%float], [1e19%float; 0%float; 0%float].
  destruct (constraint_bounds_shape
              (ConSeq [example_con_ineq; example_con_eq]) example_point
              INF_default [0%float; 0%float; 0%float]
              [1e19%float; 0%float; 0%float] eq_refl) as (H1 & H2 & _).
  split; [reflexivity|]. split; [exact H2|]. rewrite <- H1. exact H2.
Defined.

Lemma get_constraint_bounds_loop_probe_error before con after x0 INF cl cu e :
  Forall (defined_at x0) before ->
  Forall known_type before ->
  con_fun con x0 (default [] (con_args con)) = Err e ->
  get_constraint_bounds_loop (before ++ con :: after) x0 INF cl cu = Err e.
Proof.
  intros Hdef Hty Herr. revert cl cu.
  induction before as [|c rest IH]; intros cl cu; cbn.
  - rewrite Herr. reflexivity.
  - inversion Hdef as [|? ? Hc Hdrest]; subst.
    inversion Hty as [|? ? Hk Hkrest]; subst.
    unfold defined_at in Hc.
    destruct (con_fun c x0 (default [] (con_args c))); [|discriminate].
    destruct Hk as [-> | ->]; cbn; apply IH; assumption.
Qed.

(** An exception of a constraint function at the probe point is not
    caught: when the constraints before it are defined and of a known
    type, it is what [get_constraint_bounds] raises, and the entry
    operation raises it before it has written into the store or called
    the solver (given that the adapter could be constructed). *)
Theorem probe_error_propagates cy fun_ x0 args kwargs jac hess hessp bounds
    constraints tol options w adapter before con after e :
  as_sequence constraints = before ++ con :: after ->
  Forall (defined_at x0) before ->
  Forall known_type before ->
  con_fun con x0 (default [] (con_args con)) = Err e ->
  IpoptProblemWrapper.__init__ fun_ args kwargs jac hess hessp constraints
    eps_default = Ok adapter ->
  (forall INF, get_constraint_bounds constraints x0 INF = Err e) /\
  minimize_ipopt cy fun_ x0 args kwargs jac hess hessp bounds constraints tol
    options w = (Err e, w).
Proof.
  intros Hsplit Hdef Hty Herr Hinit.
  assert (forall INF, get_constraint_bounds constraints x0 INF = Err e) as Hcb.
  { intros INF. unfold get_constraint_bounds. rewrite Hsplit.
    apply get_constraint_bounds_loop_probe_error; assumption. }
  split; [exact Hcb|].
  eapply minimize_ipopt_bounds_error; [exact Hinit|apply Hcb].
Qed.

Lemma probe_error_propagates_witness :
  let failing :=
    {| con_fun := fun _ _ => Err (Raised "division by zero");
       con_jac := Some (fun x _ => Ok (Row (atleast_1d x)));
       con_type := "eq"; con_args := None |} in
  get_constraint_bounds (ConSeq [example_con_ineq; failing; example_con_le])
    example_point INF_default = Err (Raised "division by zero").
Proof.
  intros failing.
  refine (proj1 (probe_error_propagates example_solver example_objective
                   example_point [] None JacNone None None None
                   (ConSeq [example_con_ineq; failing; example_con_le])
                   None None example_world _ [example_con_ineq] failing
                   [example_con_le] (Raised "division by zero")
                   eq_refl _ _ eq_refl eq_refl) INF_default).
  - repeat constructor.
  - constructor; [right; reflexivity|constructor].
Defined.

(** * Further properties of the option translation *)

Lemma dict_in_keys k (d : pydict) : dict_in k d = true <-> k ∈ dict_keys d.
Proof.
  unfold dict_in, dict_keys. induction d as [|[k0 v0] d IH]; cbn.
  - split; [discriminate|]. intros H. inversion H.
  - rewrite elem_of_cons. destruct (String.eqb_spec k k0) as [->|Hne].
    + split; [left; reflexivity|reflexivity].
    + rewrite IH. split; [right; assumption|].
      intros [H|H]; [congruence|exact H].
Qed.

Lemma dict_keys_del_subset k k' d :
  k' ∈ dict_keys (dict_del k d) -> k' ∈ dict_keys d.
Proof.
  unfold dict_keys. induction d as [|[k0 v0] d IH]; cbn; [tauto|].
  destruct (String.eqb k k0); cbn; rewrite !elem_of_cons; intuition.
Qed.

Lemma dict_keys_set k v d :
  dict_keys (dict_set k v d)
    = if dict_in k d then dict_keys d else dict_keys d ++ [k].
Proof.
  unfold dict_keys, dict_in. induction d as [|[k0 v0] d IH]; cbn; [reflexivity|].
  destruct (String.eqb_spec k k0) as [->|Hne]; cbn; [reflexivity|].
  rewrite IH. destruct (dict_get k d); reflexivity.
Qed.

Lemma dict_keys_del_NoDup k d :
  NoDup (dict_keys d) -> NoDup (dict_keys (dict_del k d)).
Proof.
  unfold dict_keys. induction d as [|[k0 v0] d IH]; cbn; [tauto|].
  intros H. apply list.NoDup_cons in H as [Hnotin Hnd].
  destruct (String.eqb k k0); cbn; [apply IH, Hnd|].
  apply list.NoDup_cons. split; [|apply IH, Hnd].
  intros H. apply Hnotin. eapply dict_keys_del_subset. exact H.
Qed.

Lemma dict_keys_set_NoDup k v d :
  NoDup (dict_keys d) -> NoDup (dict_keys (dict_set k v d)).
Proof.
  intros H. rewrite dict_keys_set.
  destruct (dict_in k d) eqn:E; [exact H|].
  apply list.NoDup_app. split; [exact H|]. split.
  - intros x Hx Hk. apply list_elem_of_singleton in Hk. subst x.
    apply dict_in_keys in Hx. congruence.
  - apply NoDup_singleton.
Qed.

Lemma replace_option_entries_NoDup oldname newname d :
  NoDup (dict_keys d) ->
  NoDup (dict_keys (replace_option_entries oldname newname d)).
Proof.
  intros H. unfold replace_option_entries.
  destruct (dict_get oldname d); [|exact H].
  destruct (dict_in newname d); [exact H|].
  apply dict_keys_set_NoDup, dict_keys_del_NoDup, H.
Qed.

Lemma set_default_entries_NoDup key value d :
  NoDup (dict_keys d) -> NoDup (dict_keys (set_default_entries key value d)).
Proof.
  intros H. unfold set_default_entries.
  destruct (dict_in key d); [exact H|]. apply dict_keys_set_NoDup, H.
Qed.

Lemma translated_entries_NoDup tol d :
  NoDup (dict_keys d) -> NoDup (dict_keys (translated_entries tol d)).
Proof.
  intros H. unfold translated_entries.
  repeat apply set_default_entries_NoDup.
  repeat apply replace_option_entries_NoDup. exact H.
Qed.

Lemma replace_option_keeps k v oldname newname d :
  dict_get k d = Some v -> k <> oldname ->
  dict_get k (replace_option_entries oldname newname d) = Some v.
Proof.
  intros Hk Hne. rewrite dict_get_replace_option.
  destruct (dict_get oldname d) as [v0|]; [|exact Hk].
  unfold dict_in.
  destruct (dict_get newname d) eqn:Hnew; [exact Hk|].
  destruct (String.eqb_spec k newname) as [->|_]; [congruence|].
  destruct (String.eqb_spec k oldname) as [->|_]; [congruence|exact Hk].
Qed.

Lemma replace_option_key k oldname newname d :
  dict_in k (replace_option_entries oldname newname d) = true ->
  dict_in k d = true \/ k = newname.
Proof.
  unfold dict_in at 1. rewrite dict_get_replace_option.
  destruct (dict_get oldname d) as [v0|]; unfold dict_in.
  - destruct (dict_get newname d).
    + destruct (dict_get k d); [left; reflexivity|discriminate].
    + destruct (String.eqb_spec k newname) as [->|_]; [right; reflexivity|].
      destruct (String.eqb k oldname); [discriminate|].
      destruct (dict_get k d); [left; reflexivity|discriminate].
  - destruct (dict_get k d); [left; reflexivity|discriminate].
Qed.

Lemma translated_keeps k v tol d :
  dict_get k d = Some v -> k <> "disp" -> k <> "maxiter" ->
  dict_get k (translated_entries tol d) = Some v.
Proof.
  intros Hk Hd Hm.
  assert (dict_get k (replace_option_entries "maxiter" "max_iter"
                        (replace_option_entries "disp" "print_level" d))
          = Some v) as H2.
  { apply replace_option_keeps; [|exact Hm].
    apply replace_option_keeps; assumption. }
  rewrite translated_get. cbv zeta. rewrite H2.
  repeat match goal with |- context [String.eqb k ?s] =>
    destruct (String.eqb k s) end; reflexivity.
Qed.

Lemma translated_key k tol d :
  dict_in k (translated_entries tol d) = true ->
  dict_in k d = true \/ In k translation_keys.
Proof.
  unfold translation_keys.
  destruct (String.eqb_spec k "hessian_approximation") as [->|H1];
    [right; cbn; tauto|].
  destruct (String.eqb_spec k "mu_strategy") as [->|H2]; [right; cbn; tauto|].
  destruct (String.eqb_spec k "tol") as [->|H3]; [right; cbn; tauto|].
  destruct (String.eqb_spec k "print_level") as [->|H4]; [right; cbn; tauto|].
  unfold dict_in at 1. rewrite translated_get. cbv zeta.
  apply String.eqb_neq in H1, H2, H3, H4. rewrite H1, H2, H3, H4.
  intros H.
  assert (dict_in k (replace_option_entries "maxiter" "max_iter"
                       (replace_option_entries "disp" "print_level" d))
          = true) as Hin by exact H.
  apply replace_option_key in Hin as [Hin| ->]; [|right; cbn; tauto].
  apply replace_option_key in Hin as [Hin| ->]; [left; exact Hin|].
  right; cbn; tauto.
Qed.

(** Translating a second time changes nothing, whatever the tolerance
    of the second time. *)
Lemma translated_twice tol tol' d :
  translated_entries tol' (translated_entries tol d) = translated_entries tol d.
Proof.
  set (d' := translated_entries tol d).
  assert (forall key, In key default_keys -> dict_in key d' = true) as Hdef
    by (intros key; apply translated_has_defaults).
  assert (replace_option_entries "disp" "print_level" d' = d') as E1.
  { unfold replace_option_entries. destruct (dict_get "disp" d'); [|reflexivity].
    rewrite (Hdef "print_level") by (cbn; tauto). reflexivity. }
  assert (replace_option_entries "maxiter" "max_iter" d' = d') as E2.
  { unfold replace_option_entries.
    destruct (dict_get "maxiter" d') eqn:Hm; [|reflexivity].
    unfold d' in Hm. rewrite translated_maxiter in Hm.
    destruct (dict_in "max_iter" d) eqn:Hmi; [|discriminate].
    assert (dict_in "max_iter" d' = true) as ->; [|reflexivity].
    unfold dict_in, d'. rewrite translated_max_iter.
    unfold dict_in in Hmi. destruct (dict_get "max_iter" d);
      [reflexivity|discriminate]. }
  unfold translated_entries at 1. fold d'. rewrite E1, E2.
  unfold set_default_entries.
  rewrite (Hdef "print_level") by (cbn; tauto).
  rewrite (Hdef "tol") by (cbn; tauto).
  rewrite (Hdef "mu_strategy") by (cbn; tauto).
  rewrite (Hdef "hessian_approximation") by (cbn; tauto).
  reflexivity.
Qed.

(** ** Further properties of the entry operation *)

(** The entries [add_options] hands to the solver are a prefix of the
    dictionary: all of it when every entry is accepted, and otherwise
    the entries up to the first one that is refused, whose exception is
    raised (a [TypeError] as the [TypeError] that names the option). *)
Lemma add_options_prefix cy nlp items w :
  exists passed rest,
    items = passed ++ rest /\
    snd (add_options cy nlp items w)
      = {| heap := heap w; trace := trace w ++ map option_event passed |} /\
    match fst (add_options cy nlp items w) with
    | Ok _ =>
        rest = [] /\
        forall k v, In (k, v) items -> addOption cy nlp k v = Ok tt
    | Err e =>
        exists before k v e0,
          passed = before ++ [(k, v)] /\
          (forall k' v', In (k', v') before ->
                         addOption cy nlp k' v' = Ok tt) /\
          addOption cy nlp k v = Err e0 /\
          e = match e0 with
              | TypeError msg => InvalidOption k v msg
              | _ => e0
              end
    end.
Proof.
  revert w. induction items as [|[k v] items IH]; intros w.
  - exists [], []. cbn. rewrite app_nil_r. destruct w.
    repeat split. intros k v [].
  - cbn [add_options]. unfold mbind, M_bind, bind, emit.
    destruct (addOption cy nlp k v) as [[]|e0] eqn:Hadd.
    + destruct (IH {| heap := heap w; trace := trace w ++ [EvAddOption k v] |})
        as (passed & rest & -> & Hw & Hr).
      exists ((k, v) :: passed), rest.
      split; [reflexivity|]. split.
      * rewrite Hw. cbn. rewrite <- app_assoc. reflexivity.
      * destruct (fst (add_options cy nlp (passed ++ rest) _)) as [u|e].
        -- destruct Hr as [-> Hacc]. split; [reflexivity|].
           intros k' v' [[= <- <-]|H]; [exact Hadd|apply Hacc, H].
        -- destruct Hr as (before & k1 & v1 & e1 & -> & Hacc & Hrej & ->).
           exists ((k, v) :: before), k1, v1, e1.
           split; [reflexivity|]. split; [|split; [exact Hrej|reflexivity]].
           intros k' v' [[= <- <-]|H]; [exact Hadd|apply Hacc, H].
    + exists [(k, v)], items. split; [reflexivity|].
      assert (forall e, @lift unit (Err e)
                          {| heap := heap w;
                             trace := trace w ++ [EvAddOption k v] |}
                        = (Err e, {| heap := heap w;
                                     trace := trace w ++ [EvAddOption k v] |}))
        as Hlift by reflexivity.
      split.
      * destruct e0; reflexivity.
      * assert (fst (match e0 with
                     | TypeError e => lift (Err (InvalidOption k v e))
                     | _ => lift (Err e0)
                     end {| heap := heap w;
                            trace := trace w ++ [EvAddOption k v] |})
                = @Err unit (match e0 with
                       | TypeError msg => InvalidOption k v msg
                       | _ => e0
                       end)) as -> by (destruct e0; reflexivity).
        exists [], k, v, e0. repeat split; try assumption. intros k' v' [].
Qed.

Lemma add_options_rejected cy nlp before k v after e0 w :
  (forall k' v', In (k', v') before -> addOption cy nlp k' v' = Ok tt) ->
  addOption cy nlp k v = Err e0 ->
  add_options cy nlp (before ++ (k, v) :: after) w
    = (Err (match e0 with
            | TypeError msg => InvalidOption k v msg
            | _ => e0
            end),
       {| heap := heap w;
          trace := trace w ++ map option_event (before ++ [(k, v)]) |}).
Proof.
  intros Hacc Hrej. revert w.
  induction before as [|[k' v'] before IH]; intros w.
  - cbn [app add_options]. unfold mbind, M_bind, bind, emit. rewrite Hrej.
    destruct e0; reflexivity.
  - cbn [app add_options]. unfold mbind, M_bind, bind, emit.
    rewrite (Hacc k' v' (or_introl eq_refl)).
    rewrite IH by (intros k2 v2 H; apply Hacc; right; exact H).
    cbn. rewrite <- app_assoc. reflexivity.
Qed.

(** The entry operation once the adapter, the constraint bounds and the
    solver object are built: the translated entries are in the
    dictionary, and what is left is to hand them to the solver and to
    call [solve]. *)
Lemma minimize_ipopt_reached cy fun_ x0 args kwargs jac hess hessp bounds
    constraints tol options w adapter cl cu :
  IpoptProblemWrapper.__init__ fun_ args kwargs jac hess hessp constraints
    eps_default = Ok adapter ->
  get_constraint_bounds constraints x0 INF_default = Ok (cl, cu) ->
  (forall l, options = Some l -> is_Some (heap w !! l)) ->
  problem cy (the_nlp x0 bounds cl cu) = Ok tt ->
  let l := options_object options w in
  let nlp := the_nlp x0 bounds cl cu in
  let items :=
    translated_entries tol
      (match options with Some l => deref l w | None => [] end) in
  minimize_ipopt cy fun_ x0 args kwargs jac hess hessp bounds constraints tol
    options w
  = after_setup cy nlp x0 items adapter
      {| heap := <[l := items]> (heap w);
         trace := trace w ++ [EvProblem nlp] |}.
Proof.
  intros Hinit Hcb Hl Hp. cbv zeta.
  rewrite (minimize_ipopt_setup _ _ _ _ _ _ _ _ _ _ _ _ _ _ _ _ Hinit Hcb Hl).
  cbv zeta. rewrite Hp.
  destruct options as [l|]; cbn [options_object with_options_object].
  - reflexivity.
  - unfold deref, store. cbn. rewrite lookup_insert_eq, insert_insert_eq.
    reflexivity.
Qed.

(** What the dictionary the caller passed holds after the entry
    operation, whatever the outcome: its entries as they were, when the
    operation failed before the translation, and else the translated
    entries. *)
Lemma final_entries cy fun_ x0 args kwargs jac hess hessp bounds
    constraints tol l w d :
  heap w !! l = Some d ->
  let w' := snd (minimize_ipopt cy fun_ x0 args kwargs jac hess hessp bounds
                   constraints tol (Some l) w) in
  deref l w' = d \/ deref l w' = translated_entries tol d.
Proof.
  intros Hd. cbv zeta.
  assert (deref l w = d) as Hdw by (unfold deref; rewrite Hd; reflexivity).
  destruct (IpoptProblemWrapper.__init__ fun_ args kwargs jac hess hessp
              constraints eps_default) as [adapter|e] eqn:Hinit.
  2:{ rewrite (minimize_ipopt_init_error _ _ _ _ _ _ _ _ _ _ _ _ _ _ Hinit).
      left. exact Hdw. }
  destruct (get_constraint_bounds constraints x0 INF_default)
    as [[cl cu]|e] eqn:Hcb.
  2:{ rewrite (minimize_ipopt_bounds_error _ _ _ _ _ _ _ _ _ _ _ _ _ _ _
                 Hinit Hcb). left. exact Hdw. }
  rewrite (minimize_ipopt_setup _ _ _ _ _ _ _ _ _ _ _ _ _ _ _ _ Hinit Hcb)
    by (intros ? [= <-]; eauto).
  cbv zeta. cbn [options_object with_options_object].
  destruct (problem cy _) as [[]|e].
  - right.
    match goal with
    | |- context [after_setup ?cy ?nlp ?x0 ?items ?a ?w2] =>
        destruct (after_setup_run cy nlp x0 items a w2) as (_ & _ & Hh & _)
    end.
    unfold deref at 1. rewrite Hh. cbn. rewrite lookup_insert_eq. cbn.
    unfold deref. cbn. rewrite Hd. reflexivity.
  - left. unfold deref. cbn. rewrite Hd. reflexivity.
Qed.

(** The entries of the caller are passed through: whatever the outcome
    of the entry operation, an entry of the caller's dictionary other
    than the aliases ['disp'] and ['maxiter'] is still there with its
    value (a default never replaces it), and a key of the dictionary
    afterwards was a key before or is one of the five names the
    translation writes. *)
Theorem caller_options_pass_through cy fun_ x0 args kwargs jac hess hessp
    bounds constraints tol l w d :
  heap w !! l = Some d ->
  let w' := snd (minimize_ipopt cy fun_ x0 args kwargs jac hess hessp bounds
                   constraints tol (Some l) w) in
  (forall k v, dict_get k d = Some v -> k <> "disp" -> k <> "maxiter" ->
               dict_get k (deref l w') = Some v) /\
  (forall k, dict_in k (deref l w') = true ->
             dict_in k d = true \/ In k translation_keys).
Proof.
  intros Hd. cbv zeta.
  destruct (final_entries cy fun_ x0 args kwargs jac hess hessp bounds
              constraints tol l w d Hd) as [-> | ->].
  - split; [intros; assumption|]. intros k H. left. exact H.
  - split; [intros k v; apply translated_keeps|intros k; apply translated_key].
Qed.

Lemma caller_options_pass_through_witness :
  let w :=
    {| heap := {[ 1%positive := [("linear_solver", VStr "ma57");
                                 ("tol", VFloat 1%float)] ]};
       trace := [] |} in
  let w' := snd (minimize_ipopt example_solver example_combined example_point
                   [] None JacTrue None None None (ConSeq []) None
                   (Some 1%positive) w) in
  dict_get "linear_solver" (deref 1%positive w') = Some (VStr "ma57") /\
  dict_get "tol" (deref 1%positive w') = Some (VFloat 1%float).
Proof.
  intros w w'.
  destruct (caller_options_pass_through example_solver example_combined
              example_point [] None JacTrue None None None (ConSeq []) None
              1%positive w
              [("linear_solver", VStr "ma57"); ("tol", VFloat 1%float)]
              eq_refl) as [H _].
  split; apply H; try reflexivity; discriminate.
Defined.

(** The dictionary stays a dictionary: when the keys of the caller's
    dictionary are distinct, they are distinct after the entry
    operation, whatever its outcome. *)
Theorem options_keys_stay_distinct cy fun_ x0 args kwargs jac hess hessp
    bounds constraints tol l w d :
  heap w !! l = Some d ->
  NoDup (dict_keys d) ->
  NoDup (dict_keys
           (deref l (snd (minimize_ipopt cy fun_ x0 args kwargs jac hess
                            hessp bounds constraints tol (Some l) w)))).
Proof.
  intros Hd Hnd.
  destruct (final_entries cy fun_ x0 args kwargs jac hess hessp bounds
              constraints tol l w d Hd) as [-> | ->];
    [exact Hnd|apply translated_entries_NoDup, Hnd].
Qed.

Lemma options_keys_stay_distinct_witness :
  NoDup (dict_keys
           (deref 1%positive
              (snd (minimize_ipopt example_solver example_combined
                      example_point [] None JacTrue None None None
                      (ConSeq []) None (Some 1%positive)
                      example_world_aliases)))).
Proof.
  apply (options_keys_stay_distinct example_solver example_combined
           example_point [] None JacTrue None None None (ConSeq []) None
           1%positive example_world_aliases
           [("disp", VInt 5); ("maxiter", VInt 100)] eq_refl).
  apply NoDup_cons_2; [|apply NoDup_singleton].
  intros H. apply list_elem_of_singleton in H. discriminate.
Defined.

(** An option the solver refuses stops the entry operation. The entries
    before it, in the order of the dictionary, have been handed to the
    solver, the entries after it never are, and [solve] is not called;
    a [TypeError] of [addOption] is raised again as the [TypeError] that
    names the option, its value and the solver's message, any other
    exception unchanged. The dictionary keeps the translated entries. *)
Theorem refused_option_stops_the_call cy fun_ x0 args kwargs jac hess hessp
    bounds constraints tol options w adapter cl cu before k v after e0 :
  IpoptProblemWrapper.__init__ fun_ args kwargs jac hess hessp constraints
    eps_default = Ok adapter ->
  get_constraint_bounds constraints x0 INF_default = Ok (cl, cu) ->
  (forall l, options = Some l -> is_Some (heap w !! l)) ->
  let nlp := the_nlp x0 bounds cl cu in
  let items :=
    translated_entries tol
      (match options with Some l => deref l w | None => [] end) in
  problem cy nlp = Ok tt ->
  items = before ++ (k, v) :: after ->
  (forall k' v', In (k', v') before -> addOption cy nlp k' v' = Ok tt) ->
  addOption cy nlp k v = Err e0 ->
  minimize_ipopt cy fun_ x0 args kwargs jac hess hessp bounds constraints tol
    options w
  = (Err (match e0 with
          | TypeError msg => InvalidOption k v msg
          | _ => e0
          end),
     {| heap := <[options_object options w := items]> (heap w);
        trace := trace w ++
                 EvProblem nlp :: map option_event (before ++ [(k, v)]) |}).
Proof.
  intros Hinit Hcb Hl nlp items Hp Hitems Hacc Hrej.
  rewrite (minimize_ipopt_reached _ _ _ _ _ _ _ _ _ _ _ _ _ _ _ _
             Hinit Hcb Hl Hp).
  cbv zeta. fold nlp. fold items. unfold after_setup.
  match goal with
  | |- context [add_options _ _ _ ?W] =>
      pose proof (add_options_rejected cy nlp before k v after e0 W
                    Hacc Hrej) as Hr
  end.
  rewrite <- Hitems in Hr. rewrite Hr. cbn.
  rewrite <- app_assoc. reflexivity.
Qed.

Lemma refused_option_stops_the_call_witness :
  let strict :=
    {| problem := fun _ => Ok tt;
       addOption := fun _ k _ =>
         if String.eqb k "colour" then Err (TypeError "unknown option")
         else Ok tt;
       solve := solve example_solver |} in
  let w :=
    {| heap := {[ 1%positive := [("colour", VStr "red")] ]};
       trace := [] |} in
  let run := minimize_ipopt strict example_combined example_point [] None
               JacTrue None None None (ConSeq []) None (Some 1%positive) w in
  fst run = Err (InvalidOption "colour" (VStr "red") "unknown option") /\
  ~ In (EvSolve [1%float; 2%float]) (trace (snd run)).
Proof.
  intros strict w run. subst run.
  rewrite (refused_option_stops_the_call strict example_combined
             example_point [] None JacTrue None None None (ConSeq []) None
             (Some 1%positive) w
             (IpoptProblemWrapper.mk (Some example_combined) None None
                example_combined IpoptProblemWrapper.JTrue [] [] [] [] []
                0 0 0)
             [] [] [] "colour" (VStr "red")
             [("print_level", VInt 0);
              ("tol", VFloat 0x1.5798ee2308c3ap-27%float);
              ("mu_strategy", VStr "adaptive");
              ("hessian_approximation", VStr "limited-memory")]
             (TypeError "unknown option") eq_refl eq_refl
             ltac:(intros l [= <-]; eexists; reflexivity)
             eq_refl eq_refl ltac:(intros k' v' []) eq_refl).
  split; [reflexivity|]. cbn. intros [H|[H|[]]]; discriminate.
Defined.

(** The calls the entry operation makes to the solver, outcome by
    outcome. When the adapter or the constraint bounds cannot be built,
    it makes none and raises their exception. Otherwise it constructs
    the solver object, once and first, with [n = len(x0)] and
    [m = len(cl) = len(cu)]; when the construction raises, that is its
    only call. Otherwise, when the solver accepts every entry of the
    translated dictionary, it is handed all of them in the order of the
    dictionary, then [solve] is called, once and last, and the outcome
    is that of [solve]; and when the solver refuses an entry, it has
    been handed the entries up to that one, and [solve] is not called. *)
Theorem solver_call_protocol cy fun_ x0 args kwargs jac hess hessp bounds
    constraints tol options w :
  (forall l, options = Some l -> is_Some (heap w !! l)) ->
  let run := minimize_ipopt cy fun_ x0 args kwargs jac hess hessp bounds
               constraints tol options w in
  let items :=
    translated_entries tol
      (match options with Some l => deref l w | None => [] end) in
  match IpoptProblemWrapper.__init__ fun_ args kwargs jac hess hessp
          constraints eps_default with
  | Err e => run = (Err e, w)
  | Ok adapter =>
      match get_constraint_bounds constraints x0 INF_default with
      | Err e => run = (Err e, w)
      | Ok (cl, cu) =>
          let nlp := the_nlp x0 bounds cl cu in
          nlp_n nlp = length (atleast_1d x0) /\
          nlp_m nlp = length cl /\ length cl = length cu /\
          match problem cy nlp with
          | Err e =>
              fst run = Err e /\
              trace (snd run) = trace w ++ [EvProblem nlp]
          | Ok _ =>
              ((forall k v, In (k, v) items -> addOption cy nlp k v = Ok tt) /\
               trace (snd run)
                 = trace w ++ EvProblem nlp :: map option_event items ++
                              [EvSolve (atleast_1d x0)] /\
               fst run
                 = match solve cy nlp items adapter (atleast_1d x0) with
                   | (Err e, _) => Err e
                   | (Ok (x, info), adapter') => assemble x0 x info adapter'
                   end) \/
              (exists before k v after e0,
                 items = before ++ (k, v) :: after /\
                 (forall k' v', In (k', v') before ->
                                addOption cy nlp k' v' = Ok tt) /\
                 addOption cy nlp k v = Err e0 /\
                 trace (snd run)
                   = trace w ++ EvProblem nlp ::
                       map option_event (before ++ [(k, v)]) /\
                 fst run = Err (match e0 with
                                | TypeError msg => InvalidOption k v msg
                                | _ => e0
                                end))
          end
      end
  end.
Proof.
  intros Hl. cbv zeta.
  destruct (IpoptProblemWrapper.__init__ fun_ args kwargs jac hess hessp
              constraints eps_default) as [adapter|e] eqn:Hinit.
  2:{ exact (minimize_ipopt_init_error _ _ _ _ _ _ _ _ _ _ _ _ _ _ Hinit). }
  destruct (get_constraint_bounds constraints x0 INF_default)
    as [[cl cu]|e] eqn:Hcb.
  2:{ exact (minimize_ipopt_bounds_error _ _ _ _ _ _ _ _ _ _ _ _ _ _ _
               Hinit Hcb). }
  assert (length cl = length cu) as Hlen.
  { unfold get_constraint_bounds in Hcb.
    destruct (get_constraint_bounds_loop_shape _ _ _ _ _ _ _ Hcb)
      as (dl & du & -> & -> & Hlen & _). cbn. exact Hlen. }
  split; [reflexivity|]. split; [reflexivity|]. split; [exact Hlen|].
  set (items := translated_entries tol
                  (match options with Some l => deref l w | None => [] end)).
  destruct (problem cy (the_nlp x0 bounds cl cu)) as [[]|e] eqn:Hp.
  - rewrite (minimize_ipopt_reached _ _ _ _ _ _ _ _ _ _ _ _ _ _ _ _
               Hinit Hcb Hl Hp).
    cbv zeta. fold items. unfold after_setup.
    match goal with
    | |- context [add_options ?cy ?nlp items ?W] =>
        destruct (add_options_prefix cy nlp items W)
          as (passed & rest & Hitems & Hw & Hres);
        destruct (add_options cy nlp items W) as [[[]|e] w3]
    end; cbn [fst snd] in Hw, Hres; subst w3.
    + destruct Hres as [-> Hacc]. rewrite app_nil_r in Hitems. subst passed.
      left. split; [exact Hacc|].
      destruct (solve cy _ _ adapter (atleast_1d x0)) as [[[x info]|e] a'];
        cbn; rewrite <- !app_assoc; split; reflexivity.
    + destruct Hres as (before & k & v & e0 & -> & Hacc & Hrej & ->).
      right. exists before, k, v, rest, e0.
      split; [rewrite Hitems, <- app_assoc; reflexivity|].
      split; [exact Hacc|]. split; [exact Hrej|].
      cbn. rewrite <- app_assoc. split; reflexivity.
  - rewrite (minimize_ipopt_setup _ _ _ _ _ _ _ _ _ _ _ _ _ _ _ _
               Hinit Hcb Hl).
    cbv zeta. rewrite Hp. cbn. split; reflexivity.
Qed.

Lemma solver_call_protocol_witness :
  trace (snd (minimize_ipopt example_solver example_combined example_point
                [] None JacTrue None None None (ConSeq []) None
                (Some 1%positive) example_world))
  = [EvProblem (the_nlp example_point None [] []);
     EvAddOption "disp" (VInt 5); EvAddOption "print_level" (VInt 3);
     EvAddOption "tol" (VFloat 0x1.5798ee2308c3ap-27%float);
     EvAddOption "mu_strategy" (VStr "adaptive");
     EvAddOption "hessian_approximation" (VStr "limited-memory");
     EvSolve [1%float; 2%float]].
Proof.
  pose proof (solver_call_protocol example_solver example_combined
                example_point [] None JacTrue None None None (ConSeq []) None
                (Some 1%positive) example_world
                ltac:(intros l [= <-]; eexists; reflexivity)) as H.
  cbv zeta in H.
  change (IpoptProblemWrapper.__init__ example_combined [] None JacTrue None
            None (ConSeq []) eps_default)
    with (Ok (IpoptProblemWrapper.mk (Some example_combined) None None
                example_combined IpoptProblemWrapper.JTrue [] [] [] [] []
                0 0 0)) in H.
  change (get_constraint_bounds (ConSeq []) example_point INF_default)
    with (@Ok (list float * list float) ([], [])) in H.
  cbv beta iota in H.
  destruct H as (_ & _ & _ & H).
  change (problem example_solver (the_nlp example_point None [] []))
    with (Ok tt) in H.
  cbv beta iota in H.
  destruct H as [(_ & Ht & _)|(before & k & v & after & e0 & _ & _ & Hrej & _)].
  - exact Ht.
  - discriminate Hrej.
Defined.

(** A dictionary of options that is used again is left as the first
    call left it: after a call that returned, a second call with the
    same dictionary, with any arguments and any solver, changes none of
    its entries. In particular the tolerance argument of the second call
    has no effect, the dictionary holding the ['tol'] of the first. *)
Theorem reused_options_are_stable
    cy fun_ x0 args kwargs jac hess hessp bounds constraints tol
    cy' fun_' x0' args' kwargs' jac' hess' hessp' bounds' constraints' tol'
    l w r w1 :
  is_Some (heap w !! l) ->
  minimize_ipopt cy fun_ x0 args kwargs jac hess hessp bounds constraints tol
    (Some l) w = (Ok r, w1) ->
  let w2 := snd (minimize_ipopt cy' fun_' x0' args' kwargs' jac' hess' hessp'
                   bounds' constraints' tol' (Some l) w1) in
  deref l w2 = deref l w1 /\
  deref l w1 = translated_entries tol (deref l w) /\
  exists first_tol, dict_get "tol" (deref l w2) = Some first_tol /\
                    dict_get "tol" (deref l w1) = Some first_tol.
Proof.
  intros Hl Hrun. cbv zeta.
  assert (forall l0, Some l = Some l0 -> is_Some (heap w !! l0)) as Hl'
    by (intros ? [= <-]; exact Hl).
  destruct (minimize_ipopt_ok_inv _ _ _ _ _ _ _ _ _ _ _ _ _ _ _ Hl' Hrun)
    as (adapter & cl & cu & _ & _ & Hafter).
  cbv zeta in Hafter.
  match type of Hafter with
  | after_setup ?cy ?nlp ?x0 ?items ?a ?w2 = _ =>
      destruct (after_setup_run cy nlp x0 items a w2) as (_ & _ & Hheap & _)
  end.
  rewrite Hafter in Hheap. cbn [snd options_object with_options_object] in Hheap.
  assert (heap w1 !! l = Some (translated_entries tol (deref l w))) as H1.
  { rewrite Hheap. cbn. rewrite lookup_insert_eq. reflexivity. }
  assert (deref l w1 = translated_entries tol (deref l w)) as Hd1.
  { unfold deref at 1. rewrite H1. reflexivity. }
  assert (deref l (snd (minimize_ipopt cy' fun_' x0' args' kwargs' jac' hess'
                          hessp' bounds' constraints' tol' (Some l) w1))
          = deref l w1) as Hd2.
  { destruct (final_entries cy' fun_' x0' args' kwargs' jac' hess' hessp'
                bounds' constraints' tol' l w1 _ H1) as [-> | ->].
    - symmetry. exact Hd1.
    - rewrite translated_twice. symmetry. exact Hd1. }
  split; [exact Hd2|]. split; [exact Hd1|].
  rewrite Hd2, Hd1.
  pose proof (translated_has_defaults tol (deref l w) "tol") as Htol.
  unfold dict_in in Htol.
  destruct (dict_get "tol" (translated_entries tol (deref l w))) as [t|];
    [exists t; split; reflexivity|].
  discriminate Htol. cbn. tauto.
Qed.

Lemma reused_options_are_stable_witness :
  let w1 := snd (minimize_ipopt example_solver example_combined example_point
                   [] None JacTrue None None None (ConSeq []) None
                   (Some 1%positive) example_world_aliases) in
  let w2 := snd (minimize_ipopt example_solver example_combined example_point
                   [] None JacTrue None None None (ConSeq [])
                   (Some 1%float) (Some 1%positive) w1) in
  dict_get "tol" (deref 1%positive w2)
    = Some (VFloat 0x1.5798ee2308c3ap-27%float).
Proof.
  cbv zeta.
  destruct (minimize_ipopt example_solver example_combined example_point
              [] None JacTrue None None None (ConSeq []) None
              (Some 1%positive) example_world_aliases)
    as [[r|e] w1] eqn:Hrun; [|vm_compute in Hrun; discriminate].
  cbn [snd].
  destruct (reused_options_are_stable
              example_solver example_combined example_point [] None JacTrue
              None None None (ConSeq []) None
              example_solver example_combined example_point [] None JacTrue
              None None None (ConSeq []) (Some 1%float)
              1%positive example_world_aliases r w1
              ltac:(eexists; reflexivity) Hrun) as (-> & -> & _).
  reflexivity.
Defined.

(** The tolerance the solver is given, when the translation is reached
    and the caller's dictionary has no ['tol']: the [tol] argument,
    except that [None] and a zero tolerance are both replaced by
    [1e-8]. *)
Theorem tolerance_default cy fun_ x0 args kwargs jac hess hessp bounds
    constraints tol l w d adapter cl cu :
  heap w !! l = Some d ->
  IpoptProblemWrapper.__init__ fun_ args kwargs jac hess hessp constraints
    eps_default = Ok adapter ->
  get_constraint_bounds constraints x0 INF_default = Ok (cl, cu) ->
  problem cy (the_nlp x0 bounds cl cu) = Ok tt ->
  dict_in "tol" d = false ->
  let w' := snd (minimize_ipopt cy fun_ x0 args kwargs jac hess hessp bounds
                   constraints tol (Some l) w) in
  exists value,
    dict_get "tol" (deref l w') = Some (VFloat value) /\
    (tol = None -> value = 0x1.5798ee2308c3ap-27%float) /\
    (forall t, tol = Some t -> PrimFloat.eqb t 0%float = true ->
               value = 0x1.5798ee2308c3ap-27%float) /\
    (forall t, tol = Some t -> PrimFloat.eqb t 0%float = false -> value = t).
Proof.
  intros Hd Hinit Hcb Hp Hno. cbv zeta.
  assert (forall l0, Some l = Some l0 -> is_Some (heap w !! l0)) as Hl
    by (intros ? [= <-]; eauto).
  rewrite (minimize_ipopt_reached _ _ _ _ _ _ _ _ _ _ _ _ _ _ _ _
             Hinit Hcb Hl Hp).
  cbv zeta. cbn [options_object].
  match goal with
  | |- context [after_setup ?cy ?nlp ?x0 ?items ?a ?w2] =>
      destruct (after_setup_run cy nlp x0 items a w2) as (_ & _ & Hh & _)
  end.
  unfold deref at 1. rewrite Hh. cbn [heap]. rewrite lookup_insert_eq. cbn.
  assert (deref l w = d) as -> by (unfold deref; rewrite Hd; reflexivity).
  rewrite (translated_default tol d "tol" _ eq_refl).
  unfold dict_in in Hno. destruct (dict_get "tol" d); [discriminate|].
  exists (tol_or_default tol). split; [reflexivity|].
  unfold tol_or_default.
  split; [intros ->; reflexivity|].
  split; intros t -> Ht; rewrite Ht; reflexivity.
Qed.

Lemma tolerance_default_witness :
  let w' := snd (minimize_ipopt example_solver example_combined example_point
                   [] None JacTrue None None None (ConSeq [])
                   (Some 0%float) (Some 1%positive) example_world) in
  dict_get "tol" (deref 1%positive w')
    = Some (VFloat 0x1.5798ee2308c3ap-27%float).
Proof.
  cbv zeta.
  destruct (tolerance_default example_solver example_combined example_point
              [] None JacTrue None None None (ConSeq []) (Some 0%float)
              1%positive example_world
              [("disp", VInt 5); ("print_level", VInt 3)]
              (IpoptProblemWrapper.mk (Some example_combined) None None
                 example_combined IpoptProblemWrapper.JTrue [] [] [] [] []
                 0 0 0)
              [] [] eq_refl eq_refl eq_refl eq_refl eq_refl)
    as (value & -> & _ & Hzero & _).
  rewrite (Hzero 0%float eq_refl eq_refl). reflexivity.
Defined.

(** An exception of [solve] (an exception of a user's function that the
    solver does not catch, for one) is raised unchanged by the entry
    operation, which returns no record; the options had been handed to
    the solver and the dictionary keeps the translated entries. *)
Theorem solver_error_propagates cy fun_ x0 args kwargs jac hess hessp bounds
    constraints tol options w adapter cl cu e adapter' :
  IpoptProblemWrapper.__init__ fun_ args kwargs jac hess hessp constraints
    eps_default = Ok adapter ->
  get_constraint_bounds constraints x0 INF_default = Ok (cl, cu) ->
  (forall l, options = Some l -> is_Some (heap w !! l)) ->
  let nlp := the_nlp x0 bounds cl cu in
  let items :=
    translated_entries tol
      (match options with Some l => deref l w | None => [] end) in
  problem cy nlp = Ok tt ->
  (forall k v, In (k, v) items -> addOption cy nlp k v = Ok tt) ->
  solve cy nlp items adapter (atleast_1d x0) = (Err e, adapter') ->
  minimize_ipopt cy fun_ x0 args kwargs jac hess hessp bounds constraints tol
    options w
  = (Err e,
     {| heap := <[options_object options w := items]> (heap w);
        trace := trace w ++ EvProblem nlp :: map option_event items ++
                            [EvSolve (atleast_1d x0)] |}).
Proof.
  intros Hinit Hcb Hl nlp items Hp Hacc Hsolve.
  rewrite (minimize_ipopt_reached _ _ _ _ _ _ _ _ _ _ _ _ _ _ _ _
             Hinit Hcb Hl Hp).
  cbv zeta. fold nlp. fold items. unfold after_setup.
  rewrite (add_options_accepted _ _ _ _ Hacc), Hsolve. cbn.
  rewrite <- !app_assoc. reflexivity.
Qed.

Lemma solver_error_propagates_witness :
  let failing :=
    {| problem := fun _ => Ok tt;
       addOption := fun _ _ _ => Ok tt;
       solve := fun _ _ adapter _ => (Err (Raised "restoration failed"), adapter)
    |} in
  fst (minimize_ipopt failing example_combined example_point [] None JacTrue
         None None None (ConSeq []) None None example_world)
  = Err (Raised "restoration failed").
Proof.
  intros failing.
  rewrite (solver_error_propagates failing example_combined example_point
             [] None JacTrue None None None (ConSeq []) None None
             example_world
             (IpoptProblemWrapper.mk (Some example_combined) None None
                example_combined IpoptProblemWrapper.JTrue [] [] [] [] []
                0 0 0)
             [] [] (Raised "restoration failed")
             (IpoptProblemWrapper.mk (Some example_combined) None None
                example_combined IpoptProblemWrapper.JTrue [] [] [] [] []
                0 0 0)
             eq_refl eq_refl ltac:(discriminate) eq_refl
             ltac:(reflexivity) eq_refl).
  reflexivity.
Defined.

(** ** Further properties of [replace_option] and [intermediate] *)

Lemma dict_del_absent k d : dict_get k d = None -> dict_del k d = d.
Proof.
  induction d as [|[k0 v0] d IH]; cbn; [reflexivity|].
  destruct (String.eqb k k0); [discriminate|].
  intros H. rewrite (IH H). reflexivity.
Qed.

Lemma dict_del_length k v d :
  NoDup (dict_keys d) -> dict_get k d = Some v ->
  S (length (dict_del k d)) = length d.
Proof.
  unfold dict_keys. induction d as [|[k0 v0] d IH]; cbn; [discriminate|].
  intros Hnd. apply list.NoDup_cons in Hnd as [Hnotin Hnd].
  destruct (String.eqb_spec k k0) as [->|Hne].
  - intros _. rewrite dict_del_absent; [reflexivity|].
    destruct (dict_get k0 d) eqn:E; [|reflexivity].
    exfalso. apply Hnotin. apply dict_in_keys. unfold dict_in. rewrite E.
    reflexivity.
  - intros H. cbn. rewrite (IH Hnd H). reflexivity.
Qed.

Lemma dict_set_length k v d :
  dict_get k d = None -> length (dict_set k v d) = S (length d).
Proof.
  induction d as [|[k0 v0] d IH]; cbn; [reflexivity|].
  destruct (String.eqb k k0); [discriminate|].
  intros H. cbn. rewrite (IH H). reflexivity.
Qed.

Lemma replace_option_entries_twice oldname newname d :
  replace_option_entries oldname newname
    (replace_option_entries oldname newname d)
  = replace_option_entries oldname newname d.
Proof.
  destruct (dict_get oldname d) as [v|] eqn:Hold.
  - destruct (dict_in newname d) eqn:Hnew.
    + assert (replace_option_entries oldname newname d = d) as E
        by (unfold replace_option_entries; rewrite Hold, Hnew; reflexivity).
      rewrite !E. reflexivity.
    + assert (replace_option_entries oldname newname d
              = dict_set newname v (dict_del oldname d)) as E
        by (unfold replace_option_entries; rewrite Hold, Hnew; reflexivity).
      rewrite E. unfold replace_option_entries.
      rewrite dict_get_set, dict_get_del, String.eqb_refl.
      destruct (String.eqb_spec oldname newname) as [->|_]; [|reflexivity].
      unfold dict_in in Hnew. rewrite Hold in Hnew. discriminate.
  - assert (replace_option_entries oldname newname d = d) as E
      by (unfold replace_option_entries; rewrite Hold; reflexivity).
    rewrite !E. reflexivity.
Qed.

(** [replace_option] on a dictionary with distinct keys never raises
    (the [pop] is guarded), touches no other object and makes no call to
    the solver. It keeps the number of entries and the distinctness of
    the keys; every key other than the two names keeps its value; when
    [newname] is absent it ends with the value [oldname] had and
    [oldname] is gone; when [newname] is present nothing changes; and a
    second application changes nothing. *)
Theorem replace_option_renames l oldname newname w d :
  heap w !! l = Some d ->
  NoDup (dict_keys d) ->
  let run := replace_option l oldname newname w in
  let d1 := deref l (snd run) in
  fst run = Ok tt /\
  trace (snd run) = trace w /\
  (forall l0, l0 <> l -> heap (snd run) !! l0 = heap w !! l0) /\
  length d1 = length d /\
  NoDup (dict_keys d1) /\
  (forall k, k <> oldname -> k <> newname -> dict_get k d1 = dict_get k d) /\
  (dict_in newname d = false ->
   dict_get newname d1 = dict_get oldname d /\ dict_in oldname d1 = false) /\
  (dict_in newname d = true -> d1 = d) /\
  replace_option l oldname newname (snd run) = (Ok tt, snd run).
Proof.
  intros Hd Hnd. cbv zeta.
  assert (is_Some (heap w !! l)) as Hl by eauto.
  rewrite (replace_option_run l oldname newname w Hl).
  assert (deref l w = d) as -> by (unfold deref; rewrite Hd; reflexivity).
  cbn [fst snd]. rewrite deref_store.
  split; [reflexivity|]. split; [reflexivity|].
  split; [intros l0 Hne; cbn; apply lookup_insert_ne; congruence|].
  split.
  { unfold replace_option_entries.
    destruct (dict_get oldname d) as [v|] eqn:Hold; [|reflexivity].
    destruct (dict_in newname d) eqn:Hnew; [reflexivity|].
    rewrite dict_set_length.
    - apply (dict_del_length oldname v d Hnd Hold).
    - rewrite dict_get_del. unfold dict_in in Hnew.
      destruct (String.eqb newname oldname); [reflexivity|].
      destruct (dict_get newname d); [discriminate|reflexivity]. }
  split; [apply replace_option_entries_NoDup, Hnd|].
  split.
  { intros k Ho Hn. rewrite dict_get_replace_option.
    apply String.eqb_neq in Ho, Hn. rewrite Ho, Hn.
    destruct (dict_get oldname d); [|reflexivity].
    destruct (dict_in newname d); reflexivity. }
  split.
  { intros Hnew. unfold dict_in at 1. rewrite !dict_get_replace_option, Hnew.
    rewrite !String.eqb_refl.
    destruct (dict_get oldname d) as [v|] eqn:Hold.
    - split; [reflexivity|].
      destruct (String.eqb_spec oldname newname) as [->|_]; [|reflexivity].
      unfold dict_in in Hnew. rewrite Hold in Hnew. discriminate.
    - unfold dict_in in Hnew.
      destruct (dict_get newname d); [discriminate|]. split; reflexivity. }
  split.
  { intros Hnew. unfold replace_option_entries. rewrite Hnew.
    destruct (dict_get oldname d); reflexivity. }
  rewrite (replace_option_run l oldname newname _ (store_is_Some _ _ _)).
  rewrite deref_store, store_store, replace_option_entries_twice.
  reflexivity.
Qed.

Lemma replace_option_renames_witness :
  let run := replace_option 1%positive "disp" "print_level"
               example_world_aliases in
  deref 1%positive (snd run)
    = [("maxiter", VInt 100); ("print_level", VInt 5)] /\
  replace_option 1%positive "disp" "print_level" (snd run) = (Ok tt, snd run).
Proof.
  intros run.
  destruct (replace_option_renames 1%positive "disp" "print_level"
              example_world_aliases
              [("disp", VInt 5); ("maxiter", VInt 100)] eq_refl)
    as (_ & _ & _ & _ & _ & _ & _ & _ & H).
  - apply NoDup_cons_2; [|apply NoDup_singleton].
    intros H. apply list_elem_of_singleton in H. discriminate.
  - split; [reflexivity|exact H].
Defined.

Lemma evaluation_keeps_nit a b : evaluation a b -> nit b = nit a.
Proof.
  destruct 1 as [self x|self x];
    unfold IpoptProblemWrapper.objective, IpoptProblemWrapper.gradient,
      IpoptProblemWrapper.evaluate_fun_with_grad,
      IpoptProblemWrapper.return_last_value.
  - destruct (fun_with_jac self); [|reflexivity].
    destruct (match last_x self with
              | Some last => negb (np_all_eq last x)
              | None => true
              end); cbn.
    + destruct (IpoptProblemWrapper.fun_ self x _ _); reflexivity.
    + destruct (last_value self); reflexivity.
  - destruct (fun_with_jac self).
    + destruct (match last_x self with
                | Some last => negb (np_all_eq last x)
                | None => true
                end); cbn.
      * destruct (IpoptProblemWrapper.fun_ self x _ _); reflexivity.
      * destruct (last_value self); reflexivity.
    + cbn. destruct (IpoptProblemWrapper.jac self); reflexivity.
Qed.

(** The iteration count is what the solver reported last: [intermediate]
    records its [iter_count], whatever it is and whatever the other ten
    arguments are, leaving the counters of evaluations and the cache as
    they were, and no evaluation that follows changes it. It is not a
    maximum: a smaller count replaces a larger one. *)
Theorem iteration_count_is_last_reported
    self alg_mod iter_count obj_value inf_pr inf_du mu d_norm
    regularization_size alpha_du alpha_pr ls_trials later :
  let reported :=
    IpoptProblemWrapper.intermediate self alg_mod iter_count obj_value
      inf_pr inf_du mu d_norm regularization_size alpha_du alpha_pr
      ls_trials in
  rtc evaluation reported later ->
  nit later = iter_count /\
  nfev reported = nfev self /\ njev reported = njev self /\
  last_x reported = last_x self /\ last_value reported = last_value self /\
  same_setup self reported.
Proof.
  cbv zeta. intros Hlater.
  split.
  - remember (IpoptProblemWrapper.intermediate self alg_mod iter_count
                obj_value inf_pr inf_du mu d_norm regularization_size
                alpha_du alpha_pr ls_trials) as reported eqn:Hr.
    assert (nit reported = iter_count) as H0 by (subst reported; reflexivity).
    clear Hr. induction Hlater as [|a b c Hab _ IH]; [exact H0|].
    apply IH. rewrite (evaluation_keeps_nit _ _ Hab). exact H0.
  - repeat split.
Qed.

Lemma iteration_count_is_last_reported_witness :
  let self0 :=
    IpoptProblemWrapper.mk (Some example_combined) None None example_combined
      IpoptProblemWrapper.JTrue [] [] [] [] [] 0 0 7 in
  let reported :=
    IpoptProblemWrapper.intermediate self0 0 3 0%float 0%float 0%float
      0%float 0%float 0%float 0%float 0%float 0 in
  nit (snd (IpoptProblemWrapper.objective reported example_point)) = 3.
Proof.
  intros self0 reported.
  exact (proj1 (iteration_count_is_last_reported self0 0 3 0%float 0%float
                  0%float 0%float 0%float 0%float 0%float 0%float 0 _
                  (rtc_once _ _ (evaluation_objective reported example_point)))).
Defined.
